(** * Best-price backend: a shallow embedding of [backend/app.py]

    The development follows the source file top to bottom:

    - texts are Python [str] values, that is sequences of Unicode code
      points;
    - the regular expressions of the source are kept as syntax trees and
      run by a backtracking matcher with the search order of Python's
      [re] module (greedy quantifiers, leftmost alternative first,
      left-to-right scan for non-overlapping matches);
    - [extract_price], [crawl_price], [search_links] and [best_price] are
      functions over these; the page fetcher ([AsyncWebCrawler.arun]) and
      the stream that [print] writes to are the external collaborators
      and are parameters of the model;
    - an exception that leaves a function is the result [None] of that
      function; a request is what [request.json] makes of its body. *)

From Stdlib Require Import ZArith NArith String Ascii Lia.
From stdpp Require Import base tactics option list sorting.

Local Open Scope Z_scope.

(** ** Texts *)

(** A character is a Unicode code point, a text is a list of them. *)
Abbreviation char := N (only parsing).
Abbreviation text := (list N) (only parsing).

(** ASCII literals of the source, written as Rocq strings. *)
Definition str (s : string) : text :=
  List.map N_of_ascii (list_ascii_of_string s).

Definition chr (a : ascii) : char := N_of_ascii a.

Definition rupee : char := 8377%N.      (* U+20B9 *)
Definition dquote : char := 34%N.       (* the double quote *)
Definition squote : char := 39%N.       (* the single quote *)
Definition newline : char := 10%N.
Definition comma : char := chr ",".
Definition dot : char := chr ".".
Definition slash : char := chr "/".
Definition ampersand : char := chr "&".

(** The tables of the Python runtime that the source relies on through
    [re] ([\d], [\s], [re.IGNORECASE]), [float] and [str.strip].  They
    are not part of the repository, so the model takes them as a
    parameter; [ascii_tables] below is the instance that agrees with
    CPython on texts made of ASCII characters and the rupee sign. *)
Class Unicode := {
  (** category Nd: the value of a decimal digit *)
  decimal : char -> option Z;
  (** white space, as [\s] and [str.strip] see it *)
  isspace : char -> bool;
  (** [same_letter c d]: the letter [c] of a pattern compiled with
      [re.IGNORECASE] matches the character [d] *)
  same_letter : char -> char -> bool;
  (** the full stop and the comma are no digits *)
  point_not_decimal : decimal dot = None;
  comma_not_decimal : decimal comma = None
}.

Definition ascii_lower (c : char) : char :=
  if ((65 <=? c) && (c <=? 90))%N then (c + 32)%N else c.

Definition ascii_decimal (c : char) : option Z :=
  if ((48 <=? c) && (c <=? 57))%N then Some (Z.of_N c - 48) else None.

(** The ASCII characters for which [str.isspace] holds: the tab, the
    line feed, the vertical tab, the form feed, the carriage return,
    the four separators U+001C to U+001F and the space. *)
Definition ascii_isspace (c : char) : bool :=
  ((9 <=? c) && (c <=? 13) || (28 <=? c) && (c <=? 32))%N.

Definition ascii_tables : Unicode := {|
  decimal := ascii_decimal;
  isspace := ascii_isspace;
  same_letter c d := (ascii_lower c =? ascii_lower d)%N;
  point_not_decimal := eq_refl;
  comma_not_decimal := eq_refl
|}.

Definition ascii_letter (c : char) : bool :=
  ((65 <=? c) && (c <=? 90) || (97 <=? c) && (c <=? 122))%N.

(** A surrogate: a code point that UTF-8 does not encode. *)
Definition surrogate (c : char) : bool :=
  ((55296 <=? c) && (c <=? 57343))%N.

(** ** Standard output *)

(** [print] writes to [sys.stdout], which encodes each character and
    raises [UnicodeEncodeError] on one that its encoder refuses.  The
    stream is not part of the repository; the model takes it as a
    parameter and assumes that it is a UTF-8 stream, as CPython sets it
    up in a UTF-8 locale or in UTF-8 mode: every character that is no
    surrogate is written, and the error handler of the stream decides on
    the surrogates ([strict] refuses them all, [surrogateescape] lets
    U+DC80 to U+DCFF through, [backslashreplace] lets all through). *)
Class Console := {
  encodes : char -> bool;
  encodes_scalar : forall c, surrogate c = false -> encodes c = true
}.

(** [print(s)]: [true] when the line is written, [false] when
    [UnicodeEncodeError] is raised. *)
Definition print {C : Console} (s : text) : bool := forallb encodes s.

(** The stream with the handler [strict], the default of [sys.stdout]. *)
Definition strict_console : Console := {|
  encodes c := negb (surrogate c);
  encodes_scalar c H := f_equal negb H
|}.

(** ** Regular expressions *)

Module Re.

(** An item of a bracket expression. *)
Inductive citem :=
| CChr (c : char)           (* a character *)
| CRng (lo hi : char)       (* lo-hi *)
| CDigit                    (* \d *)
| CSpace.                   (* \s *)

(** What matches one character. *)
Inductive atom :=
| Lit (c : char)                          (* a literal *)
| Cls (neg : bool) (items : list citem)   (* [...] and [^...] *)
| Dot.                                    (* . *)

(** The fragment of Python's pattern syntax that the source uses.  A
    quantifier always applies to a single-character atom, except [?]
    which also applies to a group. *)
Inductive regex :=
| Eps
| One (a : atom)
| Many (a : atom) (lo : nat) (hi : option nat)  (* a* a+ a? a{lo,hi} *)
| Opt (r : regex)                               (* (?:r)? *)
| Seq (r1 r2 : regex)
| Alt (r1 r2 : regex)                           (* r1|r2 *)
| Bol                                           (* ^ *)
| Eol.                                          (* $ *)

(** A pattern either has no group, and [findall] reports the whole
    match, or it has one capturing group at top level, [pre(cap)post],
    and [findall] reports the group. *)
Inductive pattern :=
| Plain (r : regex)
| Grouped (pre cap post : regex).

Fixpoint lits (s : text) : regex :=
  match s with
  | [] => Eps
  | [c] => One (Lit c)
  | c :: s' => Seq (One (Lit c)) (lits s')
  end.

Definition lit (s : string) : regex := lits (str s).

Fixpoint cat (rs : list regex) : regex :=
  match rs with
  | [] => Eps
  | [r] => r
  | r :: rs' => Seq r (cat rs')
  end.

Definition star (a : atom) : regex := Many a 0 None.
Definition plus (a : atom) : regex := Many a 1 None.

Section Matcher.
Context {U : Unicode}.
(** [icase] is [re.IGNORECASE].  It bears on the letters of a pattern
    only: the other literals of the source (digits, punctuation, the
    rupee sign) and its bracket expressions hold no cased character,
    and [re] compares those exactly. *)
Variable icase : bool.

Definition citem_ok (i : citem) (c : char) : bool :=
  match i with
  | CChr d => (c =? d)%N
  | CRng lo hi => ((lo <=? c) && (c <=? hi))%N
  | CDigit => bool_decide (is_Some (decimal c))
  | CSpace => isspace c
  end.

Definition atom_ok (a : atom) (c : char) : bool :=
  match a with
  | Lit d =>
      if icase && ascii_letter d then same_letter d c else (c =? d)%N
  | Cls neg items => xorb neg (existsb (fun i => citem_ok i c) items)
  | Dot => negb (c =? newline)%N
  end.

Section Exec.
Context {R : Type}.

(** Greedy repetition of a one-character test: take one more
    character whenever that is allowed and leads to a match, and
    stop here otherwise. *)
Fixpoint many (ok : char -> bool) (lo : nat) (hi : option nat)
    (k : nat -> text -> option R) (p : nat) (s : text) : option R :=
  let stop := match lo with O => k p s | S _ => None end in
  match hi, s with
  | Some O, _ => stop
  | _, c :: s' =>
      if ok c then
        match many ok (pred lo) (pred <$> hi) k (S p) s' with
        | Some x => Some x
        | None => stop
        end
      else stop
  | _, [] => stop
  end.

(** [exec r k p s] matches [r] at offset [p], where [s] is what is
    left of the subject, and hands the offset and the rest after the
    match to the continuation [k]; when [k] fails the matcher
    backtracks into [r]. *)
Fixpoint exec (r : regex) (k : nat -> text -> option R)
    (p : nat) (s : text) : option R :=
  match r with
  | Eps => k p s
  | One a =>
      match s with
      | c :: s' => if atom_ok a c then k (S p) s' else None
      | [] => None
      end
  | Many a lo hi => many (atom_ok a) lo hi k p s
  | Opt r' =>
      match exec r' k p s with
      | Some x => Some x
      | None => k p s
      end
  | Seq r1 r2 => exec r1 (exec r2 k) p s
  | Alt r1 r2 =>
      match exec r1 k p s with
      | Some x => Some x
      | None => exec r2 k p s
      end
  | Bol => match p with O => k p s | S _ => None end
  | Eol =>
      match s with
      | [] => k p s
      | [c] => if (c =? newline)%N then k p s else None
      | _ => None
      end
  end.
End Exec.

(** A match at offset [p]: what [findall] reports for it, and its
    length. *)
Definition match_at (pat : pattern) (p : nat) (s : text)
    : option (text * nat) :=
  match pat with
  | Plain r =>
      exec r (fun p' _ => Some (take (p' - p) s, (p' - p)%nat)) p s
  | Grouped pre cap post =>
      exec pre (fun p1 s1 =>
        exec cap (fun p2 s2 =>
          exec post (fun p3 _ =>
            Some (take (p2 - p1) s1, (p3 - p)%nat)) p2 s2) p1 s1) p s
  end.

(** The scan of [re.findall]: try every offset from left to right;
    after a match of length [n] the next [n - 1] offsets are inside the
    match and are skipped.  (After an empty match the scan moves on by
    one character; the patterns of the source match no empty text, see
    [price_match_consumes] and [url_match_consumes].) *)
Fixpoint scan (pat : pattern) (p skip : nat) (s : text) : list text :=
  match skip, s with
  | S n, [] => []
  | S n, _ :: s' => scan pat (S p) n s'
  | O, _ =>
      match match_at pat p s with
      | Some (g, n) =>
          g :: match s with
               | [] => []
               | _ :: s' => scan pat (S p) (pred n) s'
               end
      | None =>
          match s with
          | [] => []
          | _ :: s' => scan pat (S p) 0 s'
          end
      end
  end.

(** [re.findall(pat, s)] *)
Definition findall (pat : pattern) (s : text) : list text :=
  scan pat 0 0 s.

(** [re.sub] of the matches of [r] in [s] by the empty string: the
    matches are cut out, the rest is kept. *)
Fixpoint cut (r : regex) (p skip : nat) (s : text) : text :=
  match skip, s with
  | S n, [] => []
  | S n, _ :: s' => cut r (S p) n s'
  | O, [] => []
  | O, c :: s' =>
      match match_at (Plain r) p s with
      | Some (_, O) => c :: cut r (S p) 0 s'
      | Some (_, S n) => cut r (S p) n s'
      | None => c :: cut r (S p) 0 s'
      end
  end.

Definition sub_empty (r : regex) (s : text) : text := cut r 0 0 s.

(** [re.match(r, s)] as a truth value *)
Definition matches_at_start (r : regex) (s : text) : bool :=
  bool_decide (is_Some (match_at (Plain r) 0 s)).

End Matcher.

End Re.

(** ** [extract_price] *)

Import Re.

(** The bracket expressions and escapes of the price patterns. *)
Definition digit_or_comma : atom := Cls false [CDigit; CChr comma].
Definition digit : atom := Cls false [CDigit].
Definition space : atom := Cls false [CSpace].
Definition not_gt : atom := Cls true [CChr (chr ">")].
Definition not_rupee : atom := Cls true [CChr rupee].

(** [[\d,]+(?:\.\d{1,2})?] *)
Definition amount : regex :=
  Seq (plus digit_or_comma)
      (Opt (Seq (One (Lit dot)) (Many digit 1 (Some 2%nat)))).

(** [[\d,]+] *)
Definition whole : regex := plus digit_or_comma.

Definition price_patterns : list pattern := [
  (* Amazon patterns *)
  Grouped (cat [One (Lit rupee); star space]) amount Eps;
  Grouped (cat [One (Lit dquote); lit "price"; One (Lit dquote); lit ":";
                star space; One (Lit dquote); One (Lit rupee)])
          amount (One (Lit dquote));
  Grouped (cat [lit "priceblock_dealprice"; star not_gt; lit ">";
                One (Lit rupee); star space]) amount Eps;
  Grouped (cat [lit "priceblock_ourprice"; star not_gt; lit ">";
                One (Lit rupee); star space]) amount Eps;
  Grouped (cat [lit "a-price-whole"; star not_gt; lit ">"]) whole Eps;
  (* Flipkart patterns *)
  Grouped (One (Lit rupee)) whole (cat [star space; lit "</div>"]);
  Grouped (cat [One (Lit dquote); lit "sellingPrice"; One (Lit dquote);
                lit ":"; star space; lit "{"; star space; One (Lit dquote);
                lit "amount"; One (Lit dquote); lit ":"; star space])
          whole Eps;
  Grouped (cat [lit "_30jeq3"; star not_gt; lit ">"; One (Lit rupee)])
          whole Eps;
  (* Generic patterns *)
  Grouped (cat [Alt (lit "price") (Alt (lit "cost") (lit "amount"));
                star not_rupee; One (Lit rupee); star space]) amount Eps;
  Grouped (cat [One (Lit rupee); star space]) amount
          (cat [star space; Alt (lit "only") (lit "/-")])
].

(** A price.  The source holds prices in binary floating point
    ([float]).  What it parses is a capture of [amount] or [whole] with
    the commas removed: digits with at most two decimals, which is a
    whole number of hundredths.  [float] rounds it to the nearest
    double, and that rounding is monotone, exact on the bounds 1000 and
    200000, and one-to-one on the hundredths between them (neighbouring
    doubles there are less than 1e-10 apart).  So the comparisons, the
    de-duplication and the sort of the source give the same outcome on
    the exact values, and the model carries a price as its exact number
    of hundredths. *)
Abbreviation hundredths := Z (only parsing).

Definition rupees (n : Z) : hundredths := 100 * n.

(** [s.replace] of the comma by the empty string *)
Definition replace_commas (s : text) : text :=
  filter (fun c => c <> comma) s.

Section ExtractPrice.
Context {U : Unicode}.

(** The number that a run of decimal digits writes in base ten;
    [None] when a character is no digit. *)
Fixpoint digits_value (acc : Z) (s : text) : option Z :=
  match s with
  | [] => Some acc
  | c :: s' =>
      match decimal c with
      | Some d => digits_value (10 * acc + d) s'
      | None => None
      end
  end.

(** The two decimals after the point, in hundredths. *)
Definition decimals_value (s : text) : option Z :=
  match s with
  | [_] => Z.mul 10 <$> digits_value 0 s
  | [_; _] => digits_value 0 s
  | _ => None
  end.

(** [float(s)] on the texts that reach it: digits, then possibly a
    point and one or two digits (lemma [captures_are_numerals]).  [None]
    is [ValueError], which on these texts is raised for the empty text
    only. *)
Fixpoint float_from (acc : Z) (s : text) : option hundredths :=
  match s with
  | [] => Some (100 * acc)
  | c :: s' =>
      if (c =? dot)%N then d ← decimals_value s'; Some (100 * acc + d)
      else d ← decimal c; float_from (10 * acc + d) s'
  end.

Definition float (s : text) : option hundredths :=
  match s with
  | [] => None
  | _ :: _ => float_from 0 s
  end.

(** [1000 <= price <= 200000] *)
Definition plausible (p : hundredths) : bool :=
  (rupees 1000 <=? p) && (p <=? rupees 200000).

(** The body of the inner loop: what one match adds to [prices]. *)
Definition parse_match (m : text) : list hundredths :=
  match float (replace_commas m) with
  | Some p => if plausible p then [p] else []
  | None => []                          (* except ValueError: continue *)
  end.

(** The list [prices] after the two loops. *)
Definition prices_of (txt : text) : list hundredths :=
  pat ← price_patterns; m ← findall true pat txt; parse_match m.

(** [list(set(prices))].  The order in which a set is listed is not
    specified; the source reads the result only when it has one element
    or after sorting it, so any listing gives the same outcome. *)
Definition list_set (l : list hundredths) : list hundredths := remove_dups l.

Definition extract_price (txt url : text) : option hundredths :=
  let prices := prices_of txt in
  match prices with
  | [] => None
  | _ :: _ =>
      let unique_prices := list_set prices in
      if (length unique_prices =? 1)%nat then unique_prices !! 0%nat
      else merge_sort Z.le unique_prices !! (length unique_prices / 2)%nat
  end.

End ExtractPrice.

(** ** The fetcher and its trace *)

(** What [crawler.arun] returns: the two textual views of a page, each
    possibly missing. *)
Record page := {
  cleaned_html : option text;
  markdown : option text
}.

(** The two ways the source sets the crawler up. *)
Inductive profile :=
| search_profile     (* BrowserConfig(headless=True); arun(url=...) *)
| page_profile.      (* desktop user agent; wait_for=body,
                        timeout=15000, delay_before_return_html=2.0 *)

(** One use of the crawler. *)
Abbreviation call := (profile * list N)%type (only parsing).

(** The crawler: for a set-up and a URL it returns a page, or raises an
    exception [e], of which the source keeps [str(e)]. *)
Abbreviation fetcher := (profile -> list N -> page + list N) (only parsing).

(** A computation together with the crawler calls it makes, in the
    order in which they are started. *)
Definition traced (A : Type) : Type := A * list call.

#[export] Instance traced_ret : MRet traced := fun A a => (a, []).

#[export] Instance traced_bind : MBind traced := fun A B f m =>
  let r := f m.1 in (r.1, m.2 ++ r.2).

Definition fetch (arun : fetcher) (pr : profile) (url : text)
    : traced (page + text) :=
  (arun pr url, [(pr, url)]).

(** [x or s] with [s] the empty string *)
Definition or_empty (x : option text) : text := default [] x.

(** The lines that the two handlers log, [e] being [str(e)]. *)
Definition crawl_error_line (url e : text) : text :=
  str "Error crawling " ++ url ++ str ": " ++ e.

Definition search_error_line (e : text) : text :=
  str "Error searching for links: " ++ e.

(** ** [crawl_price] *)

(** The dict that [crawl_price] returns; [error] is the key that is
    present on failure only. *)
Record observation := {
  url : text;
  price : option hundredths;
  error : option text
}.

Section CrawlPrice.
Context {U : Unicode} {C : Console} (arun : fetcher).

(** [None] is the [UnicodeEncodeError] that [print] raises inside the
    handler, which then leaves [crawl_price]. *)
Definition crawl_price (link : text) : traced (option observation) :=
  result ← fetch arun page_profile link;
  match result with
  | inl result =>
      let content :=
        or_empty (cleaned_html result) ++ str " "
          ++ or_empty (markdown result) in
      let p := extract_price content link in
      mret (Some {| url := link; price := p; error := None |})
  | inr e =>                                     (* except Exception as e *)
      if print (crawl_error_line link e) then
        mret (Some {| url := link; price := None; error := Some e |})
      else mret None
  end.

End CrawlPrice.

(** ** [search_links] *)

Definition SEARCH_ENGINE : text := str "https://www.google.com/search?q=".

(** [urllib.parse.quote]: letters, digits and [_.-~/] stay, every other
    character becomes the [%XX] escapes of its UTF-8 bytes; a surrogate
    has no UTF-8 encoding and makes [quote] raise [UnicodeEncodeError]
    ([None]). *)
Definition utf8 (c : char) : option (list N) :=
  (if c <? 128 then Some [c]
   else if c <? 2048 then Some [192 + c / 64; 128 + c mod 64]
   else if (55296 <=? c) && (c <=? 57343) then None
   else if c <? 65536 then
     Some [224 + c / 4096; 128 + (c / 64) mod 64; 128 + c mod 64]
   else
     Some [240 + c / 262144; 128 + (c / 4096) mod 64;
           128 + (c / 64) mod 64; 128 + c mod 64])%N.

Definition hex_digit (n : N) : char :=
  (if n <? 10 then 48 + n else 55 + n)%N.

Definition percent (b : N) : text :=
  [chr "%"; hex_digit (b / 16); hex_digit (b mod 16)]%N.

Definition always_safe (c : char) : bool :=
  ((65 <=? c) && (c <=? 90) || (97 <=? c) && (c <=? 122)
   || (48 <=? c) && (c <=? 57)
   || (c =? chr "_") || (c =? chr ".") || (c =? chr "-") || (c =? chr "~")
   || (c =? chr "/"))%N.

Fixpoint quote (s : text) : option text :=
  match s with
  | [] => Some []
  | c :: s' =>
      bytes ← utf8 c;
      q ← quote s';
      Some ((if always_safe c then [c] else bytes ≫= percent) ++ q)
  end.

(** A character that is no white space, angle bracket or quote: the
    negated bracket expression that ends the three URL patterns. *)
Definition url_char : atom :=
  Cls true [CSpace; CChr (chr "<"); CChr (chr ">"); CChr dquote; CChr squote].
Definition not_slash : atom := Cls true [CChr slash].
Definition upper_or_digit : atom :=
  Cls false [CRng (chr "A") (chr "Z"); CRng (chr "0") (chr "9")].
Definition lower_or_digit : atom :=
  Cls false [CRng (chr "a") (chr "z"); CRng (chr "0") (chr "9")].
(** An angle bracket or a quote. *)
Definition markup_char : atom :=
  Cls false [CChr (chr "<"); CChr (chr ">"); CChr dquote; CChr squote].

Definition amazon_pattern : regex :=
  cat [lit "https://www.amazon.in/"; plus not_slash; lit "/dp/";
       plus upper_or_digit; star url_char].
Definition flipkart_pattern : regex :=
  cat [lit "https://www.flipkart.com/"; plus not_slash; lit "/p/";
       plus lower_or_digit; star url_char].
Definition ebay_pattern : regex :=
  cat [lit "https://www.ebay.com/itm/"; star url_char].

Definition url_patterns : list pattern :=
  [Plain amazon_pattern; Plain flipkart_pattern; Plain ebay_pattern].

(** The two patterns of [re.sub]: a run of angle brackets and quotes
    followed by [.*$], and [&amp;.*$]. *)
Definition markup_tail : regex := cat [plus markup_char; star Dot; Eol].
Definition amp_tail : regex := cat [lit "&amp;"; star Dot; Eol].

(** [^https?://] *)
Definition scheme : regex :=
  cat [Bol; lit "http"; Many (Lit (chr "s")) 0 (Some 1%nat); lit "://"].

(** [needle in s] *)
Fixpoint contains (needle s : text) : bool :=
  bool_decide (needle `prefix_of` s)
  || match s with
     | [] => false
     | _ :: s' => contains needle s'
     end.

(** [list(dict.fromkeys(l))]: a dict keeps its keys in the order in
    which they were first inserted. *)
Definition fromkeys (l : list (list N)) : list (list N) :=
  foldl (fun keys k => if bool_decide (k ∈ keys) then keys else keys ++ [k])
        [] l.

Section SearchLinks.
Context {U : Unicode} {C : Console} (arun : fetcher).

Definition clean (link : text) : text :=
  sub_empty false amp_tail (sub_empty false markup_tail link).

Definition is_product_page (clean_link : text) : bool :=
  matches_at_start false scheme clean_link
  && (30 <? length clean_link)%nat
  && (contains (str "dp/") clean_link || contains (str "/p/") clean_link
      || contains (str "itm/") clean_link).

(** The three steps of [search_links] that follow the fetch: the
    matches of the URL patterns, the valid cleaned links, and the first
    three distinct ones. *)
Definition all_links (content : text) : list (list N) :=
  pat ← url_patterns; findall false pat content.

Definition clean_links (content : text) : list (list N) :=
  filter (fun l => is_product_page l) (clean <$> all_links content).

Definition links_in (content : text) : list (list N) :=
  take 3 (fromkeys (clean_links content)).

(** [result.cleaned_html or result.markdown or s] with [s] the empty
    string *)
Definition search_content (result : page) : text :=
  match cleaned_html result with
  | Some (c :: t) => c :: t
  | _ => or_empty (markdown result)
  end.

(** [None] is an exception that leaves [search_links]: the
    [UnicodeEncodeError] of [quote], which is raised before the [try],
    or the one of the [print] inside the handler.  The [print] of the
    links that are found writes the [repr] of each link, in which a
    surrogate is escaped, so on a UTF-8 stream it does not raise. *)
Definition search_links (product : text) : traced (option (list (list N))) :=
  let query :=
    product
    ++ str " price site:amazon.in OR site:flipkart.com OR site:ebay.com" in
  match quote query with
  | None => mret None
  | Some q =>
      let search_url := SEARCH_ENGINE ++ q in
      result ← fetch arun search_profile search_url;
      match result with
      | inl result => mret (Some (links_in (search_content result)))
      | inr e =>                                 (* except Exception as e *)
          if print (search_error_line e) then
            mret (Some [])
          else mret None
      end
  end.

End SearchLinks.

(** ** [best_price] *)

(** [asyncio.gather] under [loop.run_until_complete]: the coroutines run
    to completion in an order that the event loop and the network
    decide; each result is stored in the slot of its coroutine, and the
    list of slots is returned once no coroutine is pending.  [pick]
    stands for that order: at step [n] the coroutine that completes is
    the one at place [pick n] (modulo their number) among those still
    pending.  When a coroutine raises, [gather] hands the exception to
    its caller and the results of the others are dropped; the model
    keeps of an exception only that it was raised ([None]), so it looks
    for one once the slots are filled.  Every coroutine is started when
    the loop first runs, in the order of the arguments, and reaches the
    set-up of its crawler before any of them can finish: the uses of the
    crawler are those of all the coroutines, in that order, whether or
    not one of them raises later. *)
Fixpoint complete {A} (pick : nat -> nat) (step : nat) (tasks : list A)
    (fuel : nat) (pending : list nat) (slots : list (option A))
    : list (option A) :=
  match fuel with
  | O => slots
  | S fuel' =>
      let place := (pick step mod length pending)%nat in
      match pending !! place with
      | Some i =>
          complete pick (S step) tasks fuel' (delete place pending)
                   (<[i := tasks !! i]> slots)
      | None => slots
      end
  end.

Definition gather {A} (pick : nat -> nat)
    (coros : list (traced (option A))) : traced (option (list A)) :=
  let n := length coros in
  let slots :=
    complete pick 0 (fst <$> coros) n (seq 0 n) (replicate n None) in
  (mapM id (omap id slots), concat (snd <$> coros)).

(** [min(l, key=key)] on a non-empty list: the first element is kept
    until a strictly smaller one is met. *)
Definition min_by {A} (key : A -> Z) (first : A) (others : list A) : A :=
  foldl (fun best item => if key item <? key best then item else best)
        first others.

(** What [request.json] does in the handler.  It raises an HTTP error
    when Flask takes the body for no JSON (a wrong content type, a text
    that does not parse), and Flask answers with the status of that
    error; otherwise it gives the value of the body, of which the
    handler reads the entry [product] with [.get], which only an object
    has, and trims it with [.strip()], which only a string has. *)
Inductive refusal :=
| BadRequest
| UnsupportedMediaType.

Definition code (e : refusal) : nat :=
  match e with
  | BadRequest => 400
  | UnsupportedMediaType => 415
  end.

(** The value of an entry of a JSON object. *)
Inductive entry :=
| Text (s : text)          (* a string *)
| NotText.                 (* null, a number, a boolean, an array or an
                              object *)

Inductive request :=
| Refused (e : refusal)             (* [request.json] raises *)
| NotObject                         (* a JSON value that is no object *)
| Object (product : option entry).  (* an object, with the entry
                                       [product] when it has one *)

(** The body of a response. *)
Inductive body :=
| Error (message : text)             (* the object with the key error *)
| ServerError                        (* the same, for the message that
                                        starts with Server error: *)
| ErrorPage                          (* the page of Flask for an HTTP
                                        error or an exception that the
                                        handler does not catch *)
| Report (product : text) (best : option observation)
         (all : list observation) (found_links : nat).

Record response := {
  status : nat;
  payload : body
}.

(** [s.strip()] *)
Fixpoint lstrip {U : Unicode} (s : text) : text :=
  match s with
  | [] => []
  | c :: s' => if isspace c then lstrip s' else s
  end.

Definition strip {U : Unicode} (s : text) : text :=
  reverse (lstrip (reverse (lstrip s))).

Section BestPrice.
Context {U : Unicode} {C : Console} (arun : fetcher) (pick : nat -> nat).

(** The key of [min]: the price of an observation that has one. *)
Definition price_key (r : observation) : Z := default 0 (price r).

(** The part of [best_price] that follows the crawl. *)
Definition report (product : text) (links : list (list N))
    (results : list observation) : response :=
  let priced := filter (fun r => price r <> None) results in
  let best :=
    match priced with
    | [] => None
    | r :: rs => Some (min_by price_key r rs)
    end in
  {| status := 200;
     payload := Report product best results (length links) |}.

(** The handler of [POST /best-price].  The first line reads the
    product outside the [try]: an HTTP error of [request.json] and the
    [AttributeError] of [.get] or [.strip] on a value that has no such
    method are answered by Flask (status 500 for the exception).  The
    [print] of the number of links writes ASCII characters only and
    does not raise. *)
Definition best_price (req : request) : traced response :=
  match req with
  | Refused e => mret {| status := code e; payload := ErrorPage |}
  | NotObject => mret {| status := 500; payload := ErrorPage |}
  | Object field =>
      match default (Text []) field with
      | NotText => mret {| status := 500; payload := ErrorPage |}
      | Text s =>
          let product := strip s in
          match product with
          | [] =>
              mret {| status := 400;
                      payload := Error (str "No product name provided") |}
          | _ :: _ =>
              links ← search_links arun product;
              match links with
              | None => mret {| status := 500; payload := ServerError |}
              | Some [] =>
                  mret {| status := 404;
                          payload := Error (str "No product links found") |}
              | Some links =>
                  results ← gather pick (crawl_price arun <$> links);
                  match results with
                  | None =>
                      mret {| status := 500; payload := ServerError |}
                  | Some results => mret (report product links results)
                  end
              end
          end
      end
  end.

End BestPrice.

(** * Vocabulary of the statements *)

(** The matches of a regular expression, told without the search:
    [lang r p w rest] says that [r] can consume [w] at offset [p] when
    [rest] is what follows [w] in the subject. *)
Section Language.
Context {U : Unicode}.
Variable icase : bool.

Fixpoint lang (r : regex) (p : nat) (w rest : text) : Prop :=
  match r with
  | Eps => w = []
  | Bol => w = [] /\ p = O
  | Eol => w = [] /\ (rest = [] \/ rest = [newline])
  | One a => exists c, w = [c] /\ atom_ok icase a c = true
  | Many a lo hi =>
      Forall (fun c => atom_ok icase a c = true) w
      /\ (lo <= length w)%nat
      /\ from_option (fun h => (length w <= h)%nat) True hi
  | Opt r' => w = [] \/ lang r' p w rest
  | Seq r1 r2 =>
      exists w1 w2,
        w = w1 ++ w2 /\ lang r1 p w1 (w2 ++ rest)
        /\ lang r2 (p + length w1) w2 rest
  | Alt r1 r2 => lang r1 p w rest \/ lang r2 p w rest
  end.

(** The scan of [findall], with the offset of each match. *)
Fixpoint scan_pos (pat : pattern) (p skip : nat) (s : text)
    : list (nat * list N) :=
  match skip, s with
  | S n, [] => []
  | S n, _ :: s' => scan_pos pat (S p) n s'
  | O, _ =>
      match match_at icase pat p s with
      | Some (g, n) =>
          (p, g) :: match s with
                    | [] => []
                    | _ :: s' => scan_pos pat (S p) (pred n) s'
                    end
      | None =>
          match s with
          | [] => []
          | _ :: s' => scan_pos pat (S p) 0 s'
          end
      end
  end.

(** The matches of [pat] in [s], each with the offset where it starts. *)
Definition occurrences (pat : pattern) (s : text) : list (nat * list N) :=
  scan_pos pat 0 0 s.

End Language.

(** The place where [x] is first seen in [l]. *)
Definition first_seen (x : list N) (l : list (list N)) : option nat :=
  fst <$> list_find (fun y => y = x) l.

(** The product-page tokens of the three marketplaces. *)
Definition page_tokens : list (list N) :=
  [str "dp/"; str "/p/"; str "itm/"].

(** The sites of the three marketplaces, as the URL patterns spell
    them; for eBay that is the path of the listings. *)
Definition amazon_site : text := str "https://www.amazon.in/".
Definition flipkart_site : text := str "https://www.flipkart.com/".
Definition ebay_site : text := str "https://www.ebay.com/itm/".

(** The links that one URL pattern contributes to [clean_links]. *)
Definition accepted {U : Unicode} (r : regex) (content : text)
    : list (list N) :=
  filter (fun l => is_product_page l)
         (clean <$> findall false (Plain r) content).

(** The lower of the two middle elements of a list of even length, and
    the middle element of a list of odd length. *)
Definition lower_middle (l : list Z) : option Z :=
  l !! ((length l - 1) / 2)%nat.

(** The first claim about [extract_price], as the specification words
    it: the element at index [N // 2] of the sorted distinct values,
    which it calls the lower-middle element when [N] is even. *)
Definition median_as_specified {U : Unicode} (txt url : text)
    (sorted : list Z) : Prop :=
  extract_price txt url = sorted !! (length sorted / 2)%nat
  /\ (Nat.even (length sorted) = true ->
      extract_price txt url = lower_middle sorted).





(** The [product] entry is missing, or is white space only. *)
Definition blank {U : Unicode} (field : option (list N)) : Prop :=
  match field with
  | None => True
  | Some s => Forall (fun c => isspace c = true) s
  end.

(** The texts that reach [float]: decimal digits, then possibly a full
    stop and one or two decimal digits. *)
Definition numeral {U : Unicode} (s : list N) : Prop :=
  exists w d,
    s = w ++ d
    /\ Forall (fun c => is_Some (decimal c)) w
    /\ (d = []
        \/ exists d', d = dot :: d'
                      /\ Forall (fun c => is_Some (decimal c)) d'
                      /\ (1 <= length d' <= 2)%nat).

(** A price pattern: one group, which is [amount] or [whole]. *)
Definition price_shaped (pat : pattern) : Prop :=
  exists pre cap post,
    pat = Grouped pre cap post /\ (cap = amount \/ cap = whole).

(** ** Sample inputs *)

(** Two texts for [extract_price]. *)
Definition two_prices : text :=
  rupee :: str "1,500 and " ++ rupee :: str "2,500".

Definition three_prices_and_noise : text :=
  rupee :: str "1,500 " ++ rupee :: str "2,500 " ++ rupee :: str "3,500 "
    ++ rupee :: str "999999 " ++ rupee :: str "50 " ++ rupee :: str ",,".

(** Three links, and a crawler for which the page of the second one
    times out and the two others list a price. *)
Definition sample_links : list (list N) :=
  [str "https://www.amazon.in/phone/dp/B09G9HD6PD";
   str "https://www.flipkart.com/phone/p/itm123abc";
   str "https://www.ebay.com/itm/1234567890123"].



(** A crawler whose every fetch fails. *)
Definition offline_crawler : fetcher := fun pr link =>
  inr (str "net::ERR_INTERNET_DISCONNECTED").

(** A results page that names the three sample links, the Flipkart one
    first and twice, and a crawler that serves it for the search and
    for the pages a price each, except the Flipkart page, which times
    out. *)
Definition sample_results : text :=
  str "<a href='https://www.flipkart.com/phone/p/itm123abc'>Flipkart</a> "
  ++ str "<a href='https://www.flipkart.com/phone/p/itm123abc'>Buy</a> "
  ++ str "<a href='https://www.ebay.com/itm/1234567890123&amp;x=1'>eBay</a> "
  ++ str "<a href='https://www.amazon.in/phone/dp/B09G9HD6PD'>Amazon</a> "
  ++ str "<a href='https://www.amazon.in/s?k=phone'>more</a>".

Definition shop_crawler : fetcher := fun pr link =>
  match pr with
  | search_profile =>
      inl {| cleaned_html := Some sample_results; markdown := None |}
  | page_profile =>
      if bool_decide (link = str "https://www.flipkart.com/phone/p/itm123abc")
      then inr (str "Timeout 15000ms exceeded")
      else if bool_decide (link = str "https://www.ebay.com/itm/1234567890123")
      then inl {| cleaned_html :=
                    Some (str "<b>" ++ rupee :: str "24,999</b>");
                  markdown :=
                    Some (str "Price: " ++ rupee :: str " 24,999") |}
      else inl {| cleaned_html := None;
                  markdown :=
                    Some (str "M.R.P. " ++ rupee :: str "25,999.00") |}
  end.


(** A link that ends in a lone surrogate, and a crawler that loads
    every page but the one of that link. *)
Definition unprintable_link : text :=
  str "https://www.ebay.com/itm/1234567890123" ++ [55296%N].

Definition picky_crawler : fetcher := fun pr link =>
  if bool_decide (link = unprintable_link)
  then inr (str "Timeout 15000ms exceeded")
  else inl {| cleaned_html := Some (rupee :: str "25,999");
              markdown := None |}.

(** A crawler whose every fetch fails with a message that holds a lone
    surrogate. *)
Definition garbled_crawler : fetcher := fun pr link =>
  inr (str "Navigation failed: " ++ [56320%N]).

(** A crawler whose search finds nothing. *)
Definition empty_crawler : fetcher := fun pr link =>
  inl {| cleaned_html := Some (str "<p>No results</p>"); markdown := None |}.

(** ** Vocabulary and samples of the further properties *)

(** The code points of a Python [str]: those up to U+10FFFF. *)
Definition code_point (c : char) : Prop := (c < 1114112)%N.

(** What [quote] lets through or writes: the safe characters and the
    per cent sign. *)
Definition url_safe (c : char) : bool :=
  always_safe c || (c =? chr "%")%N.

(** What [search_links] appends to the product, and its escaped form. *)
Definition query_tail : text :=
  str " price site:amazon.in OR site:flipkart.com OR site:ebay.com".

Definition quoted_query_tail : text :=
  str "%20price%20site%3Aamazon.in%20OR%20"
  ++ str "site%3Aflipkart.com%20OR%20site%3Aebay.com".

(** A character that the two substitutions of [clean] do not look for:
    no angle bracket, no quote, no ampersand. *)
Definition link_char (c : char) : bool :=
  negb (existsb (N.eqb c)
          [chr "<"; chr ">"; dquote; squote; ampersand]).

(** The two prices of [two_prices], the other way round and one of
    them twice. *)
Definition prices_reordered : text :=
  rupee :: str "2,500 or " ++ rupee :: str "1500.00 or "
    ++ rupee :: str "2,500".

(** A text with the rupee sign and separators, and no digit. *)
Definition no_digit_text : text :=
  str "price: " ++ rupee :: str " ,,, only".

(** A link that [clean] has nothing to do on. *)
Definition tidy_link : text := str "https://www.ebay.com/itm/1234567890123".

(** A page with two distinct product links. *)
Definition two_link_page : text :=
  str "see https://www.ebay.com/itm/1234567890123 and "
  ++ str "https://www.amazon.in/phone/dp/B09G9HD6PD now".

(** A crawler whose search works and whose every page fails. *)
Definition pages_down_crawler : fetcher := fun pr link =>
  match pr with
  | search_profile =>
      inl {| cleaned_html := Some sample_results; markdown := None |}
  | page_profile => inr (str "net::ERR_CONNECTION_RESET")
  end.

(** [consumes r]: every word of [r] has a character.  [starts r c]: a
    word of [r] may start with [c]. *)
Fixpoint consumes (r : regex) : bool :=
  match r with
  | One _ => true
  | Many _ lo _ => negb (lo =? 0)%nat
  | Seq r1 r2 => consumes r1 || consumes r2
  | Alt r1 r2 => consumes r1 && consumes r2
  | Eps | Opt _ | Bol | Eol => false
  end.

Fixpoint starts {U : Unicode} (icase : bool) (r : regex) (c : char) : bool :=
  match r with
  | One a | Many a _ _ => atom_ok icase a c
  | Opt r' => starts icase r' c
  | Seq r1 r2 =>
      starts icase r1 c || negb (consumes r1) && starts icase r2 c
  | Alt r1 r2 => starts icase r1 c || starts icase r2 c
  | Eps | Bol | Eol => false
  end.

(** The ASCII digits and the comma. *)
Definition price_chars : text := str "0123456789,".

(** * Properties *)

(** ** The trace *)

Lemma traced_bind_fst {A B} (m : traced A) (f : A -> traced B) :
  (m ≫= f).1 = (f m.1).1.
Proof. reflexivity. Qed.

Lemma traced_bind_snd {A B} (m : traced A) (f : A -> traced B) :
  (m ≫= f).2 = m.2 ++ (f m.1).2.
Proof. reflexivity. Qed.

(** ** The matcher *)

Section MatcherFacts.
Context {U : Unicode}.
Variable icase : bool.

(** What [many] hands to its continuation: a run of accepted
    characters whose length respects the two bounds. *)
Lemma many_sound {R} (ok : N -> bool) (k : nat -> list N -> option R)
    (s : list N) :
  forall p lo hi x,
    many ok lo hi k p s = Some x ->
    exists w rest,
      s = w ++ rest
      /\ Forall (fun c => ok c = true) w
      /\ (lo <= length w)%nat
      /\ from_option (fun h => (length w <= h)%nat) True hi
      /\ k (p + length w)%nat rest = Some x.
Proof.
  assert (forall p lo hi x (t : list N),
    match lo with O => k p t | S _ => None end = Some x ->
    exists w rest,
      t = w ++ rest /\ Forall (fun c => ok c = true) w
      /\ (lo <= length w)%nat
      /\ from_option (fun h => (length w <= h)%nat) True hi
      /\ k (p + length w)%nat rest = Some x) as Hstop.
  { intros p [|lo] hi x t Hk; [|done]. exists [], t. simpl.
    rewrite Nat.add_0_r. repeat split; [constructor|lia| |done].
    destruct hi; simpl; [lia|done]. }
  induction s as [|c s IH]; intros p lo hi x.
  { simpl. destruct hi as [[|h]|]; apply Hstop. }
  simpl. destruct hi as [[|h]|]; [apply Hstop| |].
  - destruct (ok c) eqn:Hc; [|apply Hstop].
    destruct (many ok (pred lo) (pred <$> Some (S h)) k (S p) s) as [y|] eqn:Hm;
      [|apply Hstop].
    intros [= <-].
    destruct (IH _ _ _ _ Hm) as (w & rest & -> & Hw & Hlo & Hhi & Hk).
    exists (c :: w), rest. simpl in *.
    rewrite Nat.add_succ_r. repeat split; [by constructor|lia|lia|done].
  - destruct (ok c) eqn:Hc; [|apply Hstop].
    destruct (many ok (pred lo) (pred <$> None) k (S p) s) as [y|] eqn:Hm;
      [|apply Hstop].
    intros [= <-].
    destruct (IH _ _ _ _ Hm) as (w & rest & -> & Hw & Hlo & Hhi & Hk).
    exists (c :: w), rest. simpl in *.
    rewrite Nat.add_succ_r. repeat split; [by constructor|lia|done].
Qed.

(** Soundness of the matcher: when [exec] succeeds, the continuation
    was reached after a word of the language of the expression. *)
Lemma exec_sound {R} (r : regex) :
  forall (k : nat -> list N -> option R) p s x,
    exec icase r k p s = Some x ->
    exists w rest,
      s = w ++ rest /\ lang icase r p w rest
      /\ k (p + length w)%nat rest = Some x.
Proof.
  induction r as [|a|a lo hi|r IH|r1 IH1 r2 IH2|r1 IH1 r2 IH2| |];
    intros k p s x; simpl.
  - intros Hk. exists [], s. by rewrite Nat.add_0_r.
  - destruct s as [|c s]; [done|].
    destruct (atom_ok icase a c) eqn:Hc; [|done]. intros Hk.
    exists [c], s. simpl. rewrite Nat.add_1_r. eauto.
  - intros (w & rest & -> & Hw & Hlo & Hhi & Hk)%many_sound.
    exists w, rest. eauto.
  - destruct (exec icase r k p s) as [y|] eqn:Hr.
    + intros [= <-]. destruct (IH _ _ _ _ Hr) as (w & rest & -> & Hw & Hk).
      exists w, rest. eauto.
    + intros Hk. exists [], s. rewrite Nat.add_0_r. eauto.
  - intros (w1 & rest1 & -> & Hw1 & Hk1)%IH1.
    apply IH2 in Hk1 as (w2 & rest & -> & Hw2 & Hk).
    exists (w1 ++ w2), rest.
    rewrite <-app_assoc, length_app, Nat.add_assoc. eauto 10.
  - destruct (exec icase r1 k p s) as [y|] eqn:Hr.
    + intros [= <-]. destruct (IH1 _ _ _ _ Hr) as (w & rest & -> & Hw & Hk).
      exists w, rest. eauto.
    + intros (w & rest & -> & Hw & Hk)%IH2. exists w, rest. eauto.
  - destruct p; [|done]. intros Hk. exists [], s. eauto.
  - intros Hk. exists [], s. rewrite Nat.add_0_r.
    destruct s as [|c [|??]]; [eauto| |done].
    destruct (N.eqb_spec c newline) as [->|]; [eauto|done].
Qed.

Lemma match_at_plain (r : regex) (p : nat) (s g : list N) (n : nat) :
  match_at icase (Plain r) p s = Some (g, n) ->
  exists rest, s = g ++ rest /\ lang icase r p g rest /\ n = length g.
Proof.
  simpl. intros (w & rest & -> & Hw & Hk)%exec_sound.
  replace (p + length w - p)%nat with (length w) in Hk by lia.
  rewrite take_app_length in Hk. injection Hk as <- <-. eauto.
Qed.

Lemma match_at_grouped (pre cap post : regex) (p : nat) (s g : list N)
    (n : nat) :
  match_at icase (Grouped pre cap post) p s = Some (g, n) ->
  exists w1 w3 rest,
    s = w1 ++ g ++ w3 ++ rest
    /\ lang icase pre p w1 (g ++ w3 ++ rest)
    /\ lang icase cap (p + length w1) g (w3 ++ rest)
    /\ lang icase post (p + length w1 + length g) w3 rest
    /\ n = (length w1 + length g + length w3)%nat.
Proof.
  simpl. intros (w1 & rest1 & -> & Hw1 & Hk1)%exec_sound.
  apply exec_sound in Hk1 as (w2 & rest2 & -> & Hw2 & Hk2).
  apply exec_sound in Hk2 as (w3 & rest & -> & Hw3 & Hk).
  replace (p + length w1 + length w2 - (p + length w1))%nat
    with (length w2) in Hk by lia.
  rewrite take_app_length in Hk. injection Hk as <- <-.
  exists w1, w3, rest. repeat split; [done..|lia].
Qed.

(** The scan reports the matches that [scan_pos] lists. *)
Lemma scan_pos_snd (pat : pattern) (s : list N) :
  forall p skip, (scan_pos icase pat p skip s).*2 = scan icase pat p skip s.
Proof.
  induction s as [|c s IH]; intros p [|skip]; simpl; try done.
  - by destruct (match_at icase pat p []) as [[g n]|].
  - destruct (match_at icase pat p (c :: s)) as [[g n]|]; simpl;
      by rewrite IH.
Qed.

(** Each reported match is a match at its offset, and the offsets are
    not below where the scan is allowed to start. *)
Lemma scan_pos_match (pat : pattern) (s : list N) :
  forall p skip q g,
    (q, g) ∈ scan_pos icase pat p skip s ->
    (p + skip <= q)%nat
    /\ exists n, match_at icase pat q (drop (q - p) s) = Some (g, n).
Proof.
  induction s as [|c s IH]; intros p [|skip] q g; simpl.
  - destruct (match_at icase pat p []) as [[g' n]|] eqn:Hm;
      [|by intros ?%elem_of_nil].
    intros [= -> ->]%list_elem_of_singleton.
    rewrite Nat.sub_diag. split; [lia|eauto].
  - by intros ?%elem_of_nil.
  - destruct (match_at icase pat p (c :: s)) as [[g' n]|] eqn:Hm.
    + intros [[= -> ->]|Hin]%elem_of_cons.
      * rewrite Nat.sub_diag. split; [lia|eauto].
      * destruct (IH _ _ _ _ Hin) as [Hq [m Hm']]. split; [lia|].
        exists m. by replace (q - p)%nat with (S (q - S p)) by lia.
    + intros Hin. destruct (IH _ _ _ _ Hin) as [Hq [m Hm']]. split; [lia|].
      exists m. by replace (q - p)%nat with (S (q - S p)) by lia.
  - intros Hin. destruct (IH _ _ _ _ Hin) as [Hq [m Hm']]. split; [lia|].
    exists m. by replace (q - p)%nat with (S (q - S p)) by lia.
Qed.

(** The offsets of the reported matches increase. *)
Lemma scan_pos_increasing (pat : pattern) (s : list N) :
  forall p skip, StronglySorted lt (scan_pos icase pat p skip s).*1.
Proof.
  induction s as [|c s IH]; intros p [|skip]; simpl.
  - destruct (match_at icase pat p []) as [[g n]|]; repeat constructor.
  - constructor.
  - destruct (match_at icase pat p (c :: s)) as [[g n]|]; [|apply IH].
    simpl. constructor; [apply IH|].
    apply Forall_forall. intros q [[q' g'] [-> Hin]]%list_elem_of_fmap.
    apply scan_pos_match in Hin as [Hq _]. simpl. lia.
  - apply IH.
Qed.

Lemma findall_occurrences (pat : pattern) (s : list N) :
  findall icase pat s = (occurrences icase pat s).*2.
Proof. symmetry. apply scan_pos_snd. Qed.

(** Every match that [findall] reports for a pattern without group is
    a word of the pattern. *)
Lemma findall_plain (r : regex) (s g : list N) :
  g ∈ findall icase (Plain r) s ->
  exists p rest, lang icase r p g rest.
Proof.
  rewrite findall_occurrences.
  intros [[q g'] [-> Hin]]%list_elem_of_fmap.
  apply scan_pos_match in Hin as [_ [n Hm]].
  apply match_at_plain in Hm as (rest & _ & Hl & _). eauto.
Qed.

(** Every match that [findall] reports for a pattern with a group is a
    word of the group. *)
Lemma findall_grouped (pre cap post : regex) (s g : list N) :
  g ∈ findall icase (Grouped pre cap post) s ->
  exists p rest, lang icase cap p g rest.
Proof.
  rewrite findall_occurrences.
  intros [[q g'] [-> Hin]]%list_elem_of_fmap.
  apply scan_pos_match in Hin as [_ [n Hm]].
  apply match_at_grouped in Hm as (w1 & w3 & rest & _ & _ & Hl & _). eauto.
Qed.

End MatcherFacts.

(** ** What [float] is given *)

Section Numerals.
Context {U : Unicode}.

Lemma price_patterns_shaped : Forall price_shaped price_patterns.
Proof.
  unfold price_patterns.
  repeat (apply Forall_cons; split;
          [eexists _, _, _; split; [reflexivity|];
           first [by left | by right]|]).
  constructor.
Qed.

Lemma digit_or_comma_spec (c : N) :
  atom_ok true digit_or_comma c = true ->
  is_Some (decimal c) \/ c = comma.
Proof.
  simpl. rewrite orb_false_r, orb_true_iff, bool_decide_eq_true, N.eqb_eq.
  tauto.
Qed.

Lemma digit_spec (c : N) :
  atom_ok true digit c = true -> is_Some (decimal c).
Proof. simpl. by rewrite orb_false_r, bool_decide_eq_true. Qed.

Lemma replace_commas_digits (w : list N) :
  Forall (fun c => atom_ok true digit_or_comma c = true) w ->
  Forall (fun c => is_Some (decimal c)) (replace_commas w).
Proof.
  unfold replace_commas. induction 1 as [|c w Hc Hw IH]; [constructor|].
  rewrite filter_cons. case_decide as Hne; [|done].
  constructor; [|done]. by destruct (digit_or_comma_spec c Hc).
Qed.

Lemma digit_not_dot (c : N) : is_Some (decimal c) -> c <> dot.
Proof.
  intros [d Hd] ->. by rewrite point_not_decimal in Hd.
Qed.

Lemma digit_not_comma (c : N) : is_Some (decimal c) -> c <> comma.
Proof.
  intros [d Hd] ->. by rewrite comma_not_decimal in Hd.
Qed.

Lemma replace_commas_decimals (d : list N) :
  Forall (fun c => atom_ok true digit c = true) d ->
  replace_commas d = d /\ Forall (fun c => is_Some (decimal c)) d.
Proof.
  unfold replace_commas. induction 1 as [|c d Hc%digit_spec Hd [IH1 IH2]];
    [done|].
  rewrite filter_cons_True by by apply digit_not_comma.
  split; [by f_equal|by constructor].
Qed.

Lemma whole_numeral (p : nat) (g rest : list N) :
  lang true whole p g rest -> numeral (replace_commas g).
Proof.
  intros (Hg & _). exists (replace_commas g), [].
  rewrite app_nil_r. split; [done|]. split; [|by left].
  by apply replace_commas_digits.
Qed.

Lemma amount_numeral (p : nat) (g rest : list N) :
  lang true amount p g rest -> numeral (replace_commas g).
Proof.
  intros (w & v & -> & (Hw & _) & Hv).
  unfold replace_commas. rewrite filter_app. fold (replace_commas w).
  exists (replace_commas w), (filter (fun c => c <> comma) v).
  split; [done|]. split; [by apply replace_commas_digits|].
  destruct Hv as [->|(v1 & d & -> & (c & -> & Hc) & (Hd & Hlo & Hhi))];
    [by left|].
  right. simpl in Hc. apply N.eqb_eq in Hc as ->. simpl in Hhi.
  destruct (replace_commas_decimals d Hd) as [Heq Hdig].
  exists d. split; [|done]. simpl.
  rewrite filter_cons_True by done. f_equal. exact Heq.
Qed.

(** A match of a price pattern is not empty. *)
Lemma price_match_consumes (pat : pattern) (p : nat) (s g : list N)
    (n : nat) :
  pat ∈ price_patterns -> match_at true pat p s = Some (g, n) ->
  (0 < n)%nat.
Proof.
  intros Hpat Hm.
  pose proof (proj1 (Forall_forall _ _) price_patterns_shaped pat Hpat)
    as (pre & cap & post & -> & Hcap).
  apply match_at_grouped in Hm as (w1 & w3 & rest & _ & _ & Hg & _ & ->).
  assert (0 < length g)%nat; [|lia].
  destruct Hcap as [->| ->].
  - destruct Hg as (w & v & -> & (_ & Hlen & _) & _).
    rewrite length_app. lia.
  - destruct Hg as (_ & Hlen & _). lia.
Qed.

(** Every match of a price pattern, once its commas are removed, is a
    numeral. *)
Lemma captures_are_numerals (txt : list N) (pat : pattern) (g : list N) :
  pat ∈ price_patterns -> g ∈ findall true pat txt ->
  numeral (replace_commas g).
Proof.
  intros Hpat Hg.
  pose proof (proj1 (Forall_forall _ _) price_patterns_shaped pat Hpat)
    as (pre & cap & post & -> & Hcap).
  apply findall_grouped in Hg as (p & rest & Hg).
  destruct Hcap as [->| ->]; [by eapply amount_numeral|by eapply whole_numeral].
Qed.

Lemma digits_value_Some (w : list N) :
  Forall (fun c => is_Some (decimal c)) w ->
  forall acc, is_Some (digits_value acc w).
Proof.
  induction 1 as [|c w [v Hc] Hw IH]; intros acc; simpl; [done|].
  rewrite Hc. apply IH.
Qed.

Lemma float_from_numeral (w d : list N) :
  Forall (fun c => is_Some (decimal c)) w ->
  (d = [] \/ exists d', d = dot :: d'
                        /\ Forall (fun c => is_Some (decimal c)) d'
                        /\ (1 <= length d' <= 2)%nat) ->
  forall acc, is_Some (float_from acc (w ++ d)).
Proof.
  intros Hw Hd. induction Hw as [|c w Hc Hw IH]; intros acc.
  - destruct Hd as [->|(d' & -> & Hd' & Hlen)]; [done|].
    simpl.
    assert (is_Some (decimals_value d')) as [v ->]; [|done].
    unfold decimals_value.
    destruct d' as [|c1 [|c2 [|??]]]; simpl in Hlen; try lia.
    + destruct (digits_value_Some _ Hd' 0) as [v ->]. by eexists.
    + apply (digits_value_Some _ Hd').
  - simpl. destruct (N.eqb_spec c dot) as [->|_].
    { by apply digit_not_dot in Hc. }
    destruct Hc as [v ->]. apply IH.
Qed.

(** On a numeral, [float] raises [ValueError] for the empty text and
    for no other. *)
Lemma float_numeral (s : list N) :
  numeral s -> float s = None <-> s = [].
Proof.
  intros (w & d & -> & Hw & Hd). split; [|by intros ->].
  destruct (w ++ d) as [|c t] eqn:Hs; [done|]. unfold float.
  rewrite <-Hs. intros Hnone.
  destruct (float_from_numeral w d Hw Hd 0) as [v Hv]. congruence.
Qed.

End Numerals.

(** ** [extract_price] *)

Section ExtractPriceFacts.
Context {U : Unicode}.

Lemma parse_match_plausible m p :
  p ∈ parse_match m -> plausible p = true.
Proof.
  unfold parse_match.
  destruct (float (replace_commas m)) as [q|]; [|by intros ?%elem_of_nil].
  destruct (plausible q) eqn:Hq; [|by intros ?%elem_of_nil].
  by intros ->%list_elem_of_singleton.
Qed.

Lemma elem_of_prices_of txt p :
  p ∈ prices_of txt <->
  exists pat m, pat ∈ price_patterns /\ m ∈ findall true pat txt
                /\ p ∈ parse_match m.
Proof.
  unfold prices_of. rewrite list_elem_of_bind. split.
  - intros (pat & (m & Hp & Hm)%list_elem_of_bind & Hpat). eauto.
  - intros (pat & m & Hpat & Hm & Hp). exists pat. split; [|done].
    apply list_elem_of_bind. eauto.
Qed.

Lemma prices_of_plausible txt p :
  p ∈ prices_of txt -> plausible p = true.
Proof.
  intros (pat & m & _ & _ & Hp)%elem_of_prices_of.
  by eapply parse_match_plausible.
Qed.

Lemma plausible_spec p :
  plausible p = true <-> rupees 1000 <= p <= rupees 200000.
Proof. unfold plausible. rewrite andb_true_iff, !Z.leb_le. tauto. Qed.

(** Sorting the distinct prices gives the one strictly ascending list
    that has the elements of [prices]. *)
Lemma sorted_distinct_unique (prices sorted : list Z) :
  StronglySorted Z.lt sorted ->
  (forall v, v ∈ sorted <-> v ∈ prices) ->
  merge_sort Z.le (list_set prices) = sorted.
Proof.
  intros Hs Hel. unfold list_set.
  assert (NoDup sorted) as Hnd.
  { clear Hel. induction Hs as [|x l Hl IH Hx]; constructor; [|done].
    intros Hin. rewrite Forall_forall in Hx. specialize (Hx _ Hin). lia. }
  apply (StronglySorted_unique Z.le).
  - apply StronglySorted_merge_sort; apply _.
  - clear Hel Hnd. induction Hs as [|x l Hl IH Hx]; constructor; [done|].
    eapply Forall_impl; [exact Hx|]. intros; simpl in *; lia.
  - rewrite merge_sort_Permutation.
    apply NoDup_Permutation; [apply NoDup_remove_dups|done|].
    intros v. rewrite elem_of_remove_dups. by rewrite Hel.
Qed.

Lemma extract_price_sorted txt url (sorted : list Z) :
  StronglySorted Z.lt sorted ->
  (forall v, v ∈ sorted <-> v ∈ prices_of txt) ->
  sorted <> [] ->
  extract_price txt url = sorted !! (length sorted / 2)%nat.
Proof.
  intros Hs Hel Hne. unfold extract_price.
  pose proof (sorted_distinct_unique _ _ Hs Hel) as Hsort.
  destruct (prices_of txt) as [|p ps] eqn:Hp.
  { destruct sorted as [|v ?]; [done|].
    by specialize (proj1 (Hel v) (list_elem_of_here _ _)) as ?%elem_of_nil. }
  assert (length (list_set (p :: ps)) = length sorted) as Hlen.
  { by rewrite <-Hsort, merge_sort_Permutation. }
  rewrite Hsort, Hlen.
  destruct (Nat.eqb_spec (length sorted) 1) as [H1|H1]; [|done].
  rewrite H1.
  remember (list_set (p :: ps)) as u eqn:Hu. clear Hu.
  destruct sorted as [|v [|??]]; [done| |done].
  destruct u as [|w [|??]]; [done| |done]. simpl. f_equal.
  assert (w ∈ [v]) as Hw; [|by apply list_elem_of_singleton in Hw].
  rewrite <-Hsort, merge_sort_Permutation. left.
Qed.

Lemma extract_price_elem txt url v :
  extract_price txt url = Some v -> v ∈ prices_of txt.
Proof.
  unfold extract_price. destruct (prices_of txt) as [|p ps]; [done|].
  destruct (_ =? _)%nat; intros Hv%list_elem_of_lookup_2.
  - by apply (elem_of_remove_dups (p :: ps)) in Hv.
  - rewrite merge_sort_Permutation in Hv.
    by apply (elem_of_remove_dups (p :: ps)) in Hv.
Qed.

Lemma extract_price_None_iff txt url :
  extract_price txt url = None <-> prices_of txt = [].
Proof.
  split; [|by unfold extract_price; intros ->].
  unfold extract_price. destruct (prices_of txt) as [|p ps]; [done|].
  intros Hnone. exfalso.
  assert (list_set (p :: ps) <> []) as Hne.
  { intros Hnil. assert (p ∈ list_set (p :: ps)) as Hin
      by (apply elem_of_remove_dups; left).
    rewrite Hnil in Hin. by apply elem_of_nil in Hin. }
  assert (0 < length (list_set (p :: ps)))%nat as Hpos.
  { destruct (list_set (p :: ps)); [done|simpl; lia]. }
  destruct (Nat.eqb_spec (length (list_set (p :: ps))) 1) as [H1|H1].
  - apply lookup_ge_None in Hnone. lia.
  - apply lookup_ge_None in Hnone.
    rewrite merge_sort_Permutation in Hnone.
    pose proof (Nat.div_lt (length (list_set (p :: ps))) 2 Hpos). lia.
Qed.

End ExtractPriceFacts.

Section ExtractPriceClaims.
Context {U : Unicode}.

(** C1, as amended: when the matches of the patterns yield at least one
    in-range value, [extract_price] returns the element at index
    [N // 2] of the ascending list of the [N] distinct values.  On an
    even count that is the upper of the two middle elements (the index
    is one above the lower-middle index), and when one distinct value
    survives it is that value. *)
Theorem extract_price_median txt url (sorted : list Z) :
  StronglySorted Z.lt sorted ->
  (forall v, v ∈ sorted <-> v ∈ prices_of txt) ->
  sorted <> [] ->
  extract_price txt url = sorted !! (length sorted / 2)%nat
  /\ is_Some (extract_price txt url)
  /\ (Nat.even (length sorted) = true ->
      (length sorted / 2 = S ((length sorted - 1) / 2))%nat)
  /\ (forall v, sorted = [v] -> extract_price txt url = Some v).
Proof.
  intros Hs Hel Hne.
  pose proof (extract_price_sorted txt url sorted Hs Hel Hne) as Hx.
  split; [done|]. split; [|split].
  - rewrite Hx. apply lookup_lt_is_Some.
    assert (0 < length sorted)%nat by (destruct sorted; [done|simpl; lia]).
    apply Nat.div_lt; lia.
  - intros [k Hk]%Nat.even_spec.
    assert (0 < k)%nat.
    { destruct sorted; [done|]. simpl in Hk. lia. }
    rewrite Hk.
    replace (2 * k - 1)%nat with (1 + (k - 1) * 2)%nat by lia.
    rewrite Nat.div_add by done.
    replace (2 * k)%nat with (k * 2)%nat by lia.
    rewrite Nat.div_mul by done. simpl. lia.
  - intros v ->. by rewrite Hx.
Qed.

(** C2: a parsed value outside [1000, 200000] adds nothing to the
    candidates, every candidate lies in the interval, and so does every
    value that [extract_price] returns. *)
Theorem extract_price_in_range txt url :
  (forall m p, float (replace_commas m) = Some p ->
     ~ (rupees 1000 <= p <= rupees 200000) -> parse_match m = [])
  /\ (forall p, p ∈ prices_of txt -> rupees 1000 <= p <= rupees 200000)
  /\ (forall v, extract_price txt url = Some v ->
        rupees 1000 <= v <= rupees 200000).
Proof.
  split; [|split].
  - intros m p Hp Hout. unfold parse_match. rewrite Hp.
    destruct (plausible p) eqn:Hpl; [|done].
    by apply plausible_spec in Hpl.
  - intros p Hp. by apply plausible_spec, (prices_of_plausible txt).
  - intros v Hv%extract_price_elem.
    by apply plausible_spec, (prices_of_plausible txt).
Qed.

(** C8: [extract_price] returns [None] when no pattern matches, and
    exactly when no candidate survives; a match that [float] rejects
    adds nothing, and the candidates of the matches around it are what
    they are without it. *)
Theorem extract_price_none txt url :
  ((forall pat, pat ∈ price_patterns -> findall true pat txt = []) ->
     extract_price txt url = None)
  /\ (extract_price txt url = None <-> prices_of txt = [])
  /\ (forall m, float (replace_commas m) = None -> parse_match m = [])
  /\ (forall before m after, float (replace_commas m) = None ->
        (before ++ m :: after) ≫= parse_match
        = (before ++ after) ≫= parse_match).
Proof.
  split; [|split; [|split]].
  - intros Hno. apply extract_price_None_iff.
    destruct (prices_of txt) as [|p ps] eqn:Hp; [done|].
    assert (p ∈ prices_of txt) as (pat & m & Hpat & Hm & _)%elem_of_prices_of
      by (rewrite Hp; left).
    rewrite (Hno pat Hpat) in Hm. by apply elem_of_nil in Hm.
  - apply extract_price_None_iff.
  - intros m Hm. unfold parse_match. by rewrite Hm.
  - intros before m after Hm. rewrite !bind_app, bind_cons.
    unfold parse_match at 2. by rewrite Hm.
Qed.

End ExtractPriceClaims.

Lemma prices_of_two_prices :
  prices_of (U := ascii_tables) two_prices = [150000; 250000].
Proof. vm_compute. reflexivity. Qed.

Lemma extract_price_median_witness :
  StronglySorted Z.lt [150000; 250000]
  /\ (forall v, v ∈ [150000; 250000]
                <-> v ∈ prices_of (U := ascii_tables) two_prices)
  /\ [150000; 250000] <> []
  /\ extract_price (U := ascii_tables) two_prices [] = Some 250000.
Proof.
  assert (StronglySorted Z.lt [150000; 250000]) as Hs.
  { repeat constructor. }
  assert (forall v, v ∈ [150000; 250000]
                    <-> v ∈ prices_of (U := ascii_tables) two_prices) as Hel.
  { intros v. by rewrite prices_of_two_prices. }
  split; [exact Hs|]. split; [exact Hel|]. split; [done|].
  exact (proj1 (extract_price_median (U := ascii_tables) two_prices []
                  [150000; 250000] Hs Hel ltac:(done))).
Defined.

(** C1, as stated, fails on a text with the two prices 1,500 and 2,500:
    the value returned is 2,500, the element at index [2 // 2 = 1],
    which is the upper and not the lower of the two. *)
Lemma median_as_specified_fails :
  StronglySorted Z.lt [150000; 250000]
  /\ (forall v, v ∈ [150000; 250000]
                <-> v ∈ prices_of (U := ascii_tables) two_prices)
  /\ ~ median_as_specified (U := ascii_tables) two_prices []
        [150000; 250000].
Proof.
  split; [repeat constructor|]. split.
  { intros v. by rewrite prices_of_two_prices. }
  intros [Hidx Hlow]. specialize (Hlow eq_refl).
  rewrite Hidx in Hlow. by vm_compute in Hlow.
Qed.

(** ** [dict.fromkeys] *)

Lemma fromkeys_snoc (l : list (list N)) (k : list N) :
  fromkeys (l ++ [k])
  = if bool_decide (k ∈ fromkeys l) then fromkeys l else fromkeys l ++ [k].
Proof. unfold fromkeys. by rewrite foldl_snoc. Qed.

Lemma elem_of_fromkeys (l : list (list N)) (x : list N) :
  x ∈ fromkeys l <-> x ∈ l.
Proof.
  induction l as [|k l IH] using rev_ind; [done|].
  rewrite fromkeys_snoc, elem_of_app, list_elem_of_singleton.
  case_bool_decide as Hk.
  - rewrite IH. split; [tauto|]. intros [?| ->]; [done|]. by apply IH.
  - by rewrite elem_of_app, list_elem_of_singleton, IH.
Qed.

Lemma NoDup_fromkeys (l : list (list N)) : NoDup (fromkeys l).
Proof.
  induction l as [|k l IH] using rev_ind; [constructor|].
  rewrite fromkeys_snoc. case_bool_decide as Hk; [done|].
  apply NoDup_app. split; [done|]. split; [|apply NoDup_singleton].
  by intros x Hx ->%list_elem_of_singleton.
Qed.

Lemma first_seen_app_l (x : list N) (l l' : list (list N)) :
  x ∈ l ->
  exists a, first_seen x l = Some a /\ (a < length l)%nat
            /\ first_seen x (l ++ l') = Some a.
Proof.
  intros Hx. unfold first_seen.
  destruct (list_find_elem_of (fun y => y = x) l x Hx eq_refl) as [[a y] Ha].
  exists a. rewrite (list_find_app_l _ _ _ _ _ Ha), Ha. split; [done|].
  split; [|done]. apply list_find_Some in Ha as [Ha _].
  by apply lookup_lt_Some in Ha.
Qed.

Lemma first_seen_snoc_new (x : list N) (l : list (list N)) :
  x ∉ l -> first_seen x (l ++ [x]) = Some (length l).
Proof.
  intros Hx. unfold first_seen. rewrite list_find_app_r.
  - simpl. by rewrite decide_True.
  - apply list_find_None, Forall_forall. by intros y Hy ->.
Qed.

(** The keys are listed in the order in which they are first seen. *)
Lemma fromkeys_first_seen (l : list (list N)) :
  forall i j x y,
    (i < j)%nat -> fromkeys l !! i = Some x -> fromkeys l !! j = Some y ->
    exists a b,
      first_seen x l = Some a /\ first_seen y l = Some b /\ (a < b)%nat.
Proof.
  induction l as [|k l IH] using rev_ind; [done|].
  intros i j x y Hij. rewrite fromkeys_snoc.
  assert (forall i j x y, (i < j)%nat ->
    fromkeys l !! i = Some x -> fromkeys l !! j = Some y ->
    exists a b, first_seen x (l ++ [k]) = Some a
                /\ first_seen y (l ++ [k]) = Some b /\ (a < b)%nat) as Hold.
  { intros i' j' x' y' Hij' Hx Hy.
    destruct (IH _ _ _ _ Hij' Hx Hy) as (a & b & Ha & Hb & Hab).
    apply list_elem_of_lookup_2 in Hx, Hy.
    rewrite elem_of_fromkeys in Hx, Hy.
    destruct (first_seen_app_l x' l [k] Hx) as (a' & Ha' & _ & Ha'').
    destruct (first_seen_app_l y' l [k] Hy) as (b' & Hb' & _ & Hb'').
    exists a, b. by rewrite Ha'', Hb'', <-Ha', <-Hb'. }
  case_bool_decide as Hk; [by apply Hold|].
  intros Hx [[Hj Hy]|[-> <-]]%lookup_snoc_Some.
  - rewrite lookup_app_l in Hx by lia. by apply (Hold i j).
  - rewrite lookup_app_l in Hx by lia.
    apply list_elem_of_lookup_2 in Hx. rewrite elem_of_fromkeys in Hx.
    destruct (first_seen_app_l x l [k] Hx) as (a & _ & Ha & Ha').
    exists a, (length l). split; [done|]. split; [|done].
    apply first_seen_snoc_new. by rewrite <-elem_of_fromkeys.
Qed.

(** ** The validation of a link *)

Lemma contains_spec (needle s : list N) :
  contains needle s = true <-> exists a b, s = a ++ needle ++ b.
Proof.
  induction s as [|c s IH]; simpl.
  - rewrite orb_false_r, bool_decide_eq_true. split.
    + intros [b ->]. by exists [], b.
    + intros (a & b & H). symmetry in H.
      apply app_eq_nil in H as [-> [-> ->]%app_eq_nil]. by exists [].
  - rewrite orb_true_iff, bool_decide_eq_true, IH. split.
    + intros [[b ->]|(a & b & ->)]; [by exists [], b|by exists (c :: a), b].
    + intros ([|c' a] & b & H); simplify_eq/=.
      * left. by exists b.
      * right. eauto.
Qed.

Section Literals.
Context {U : Unicode}.

(** Without [re.IGNORECASE] a literal text matches itself only. *)
Lemma lang_lits (t : list N) :
  forall p w rest, lang false (lits t) p w rest -> w = t.
Proof.
  induction t as [|c t IH]; intros p w rest; [done|].
  destruct t as [|c2 t].
  - simpl. by intros (d & -> & ->%N.eqb_eq).
  - change (lits (c :: c2 :: t)) with (Seq (One (Lit c)) (lits (c2 :: t))).
    simpl. intros (w1 & w2 & -> & (d & -> & ->%N.eqb_eq) & Hw2).
    by rewrite (IH _ _ _ Hw2).
Qed.

Lemma lang_cat_cons (icase : bool) (r : regex) (rs : list regex) :
  forall p w rest,
    lang icase (cat (r :: rs)) p w rest ->
    exists w1 w2,
      w = w1 ++ w2 /\ lang icase r p w1 (w2 ++ rest)
      /\ lang icase (cat rs) (p + length w1) w2 rest.
Proof.
  intros p w rest. destruct rs as [|r2 rs]; [|done]. simpl.
  intros Hw. exists w, []. by rewrite app_nil_r.
Qed.

(** A text that [re.match] accepts for [^https?://] starts with one of
    the two schemes. *)
Lemma scheme_prefix (l : list N) :
  matches_at_start false scheme l = true ->
  str "http://" `prefix_of` l \/ str "https://" `prefix_of` l.
Proof.
  unfold matches_at_start. rewrite bool_decide_eq_true.
  intros [[g n] (rest & -> & Hg & _)%match_at_plain].
  unfold scheme in Hg.
  apply lang_cat_cons in Hg as (w0 & v0 & -> & [-> _] & Hg).
  apply lang_cat_cons in Hg as (w1 & v1 & -> & ->%lang_lits & Hg).
  apply lang_cat_cons in Hg as (w2 & w3 & -> & (Hs & _ & Hlen) & ->%lang_lits).
  simpl in Hlen. destruct w2 as [|c [|??]]; [| |simpl in Hlen; lia].
  - left. by exists rest.
  - right. apply Forall_cons_1 in Hs as [->%N.eqb_eq _].
    by exists rest.
Qed.

End Literals.

(** ** [search_links] *)

Section SearchLinksFacts.
Context {U : Unicode}.

Lemma is_product_page_spec (l : list N) :
  is_product_page l = true ->
  (str "http://" `prefix_of` l \/ str "https://" `prefix_of` l)
  /\ (30 < length l)%nat
  /\ exists token a b, token ∈ page_tokens /\ l = a ++ token ++ b.
Proof.
  unfold is_product_page. rewrite !andb_true_iff, !orb_true_iff.
  intros [[Hs Hlen%Nat.ltb_lt] Htok]. split; [by apply scheme_prefix|].
  split; [done|]. unfold page_tokens.
  destruct Htok as [[(a & b & ->)%contains_spec|(a & b & ->)%contains_spec]
                   |(a & b & ->)%contains_spec].
  - exists (str "dp/"), a, b. split; [left|done].
  - exists (str "/p/"), a, b. split; [right; left|done].
  - exists (str "itm/"), a, b. split; [right; right; left|done].
Qed.

Lemma elem_of_links_in (content l : list N) :
  l ∈ links_in content -> l ∈ clean_links content.
Proof.
  unfold links_in. intros (i & Hi & _)%elem_of_take.
  apply list_elem_of_lookup_2 in Hi. by rewrite elem_of_fromkeys in Hi.
Qed.

(** What [search_links] returns: nothing when [quote] raises, the empty
    list when the fetch raises, and otherwise the links of the content
    that was fetched. *)
Lemma search_links_result {C : Console}
    (arun : profile -> list N -> page + list N)
    (product : list N) (links : list (list N)) :
  (search_links arun product).1 = Some links ->
  links = [] \/ exists result, links = links_in (search_content result).
Proof.
  unfold search_links. destruct (quote _) as [q|]; [|done].
  rewrite traced_bind_fst.
  change (fetch arun search_profile (SEARCH_ENGINE ++ q)).1
    with (arun search_profile (SEARCH_ENGINE ++ q)).
  destruct (arun search_profile (SEARCH_ENGINE ++ q)) as [result|e].
  - intros [= <-]. eauto.
  - destruct (print (search_error_line e)); [|done].
    intros [= <-]. by left.
Qed.

End SearchLinksFacts.

(** ** [re.sub] with a pattern that ends in [.*$] *)

Section Cut.
Context {U : Unicode}.
Variable r : regex.

(** The two facts about [markup_tail] and [amp_tail] that matter: a
    match is not empty and reaches the end of the text, or the newline
    that ends it; and a lone newline holds no match. *)
Hypothesis match_to_end :
  forall p g rest, lang false r p g rest ->
    g <> [] /\ (rest = [] \/ rest = [newline]).
Hypothesis no_match_in_newline :
  forall p, match_at false (Plain r) p [newline] = None.

Lemma cut_skip (w rest : list N) :
  forall p, cut false r p (length w) (w ++ rest)
            = cut false r (p + length w) 0 rest.
Proof.
  induction w as [|c w IH]; intros p; simpl.
  - by rewrite Nat.add_0_r.
  - rewrite IH. f_equal. lia.
Qed.

Lemma cut_end (rest : list N) (p : nat) :
  rest = [] \/ rest = [newline] -> cut false r p 0 rest = rest.
Proof.
  intros [->| ->]; [done|].
  change (cut false r p 0 [newline])
    with (match match_at false (Plain r) p [newline] with
          | Some (_, O) => newline :: cut false r (S p) 0 []
          | Some (_, S n) => cut false r (S p) n []
          | None => newline :: cut false r (S p) 0 []
          end).
  by rewrite no_match_in_newline.
Qed.

(** What is left is the text up to the first match, followed by the
    newline that ended the text if there was one. *)
Lemma cut_shape (s : list N) :
  forall p, exists n e,
    cut false r p 0 s = take n s ++ e /\ (length e <= 1)%nat.
Proof.
  induction s as [|c s IH]; intros p.
  { exists 0%nat, []. simpl. split; [done|lia]. }
  change (cut false r p 0 (c :: s))
    with (match match_at false (Plain r) p (c :: s) with
          | Some (_, O) => c :: cut false r (S p) 0 s
          | Some (_, S n) => cut false r (S p) n s
          | None => c :: cut false r (S p) 0 s
          end).
  destruct (match_at false (Plain r) p (c :: s)) as [[g n]|] eqn:Hm.
  - apply match_at_plain in Hm as (rest & Hs & Hg & ->).
    destruct (match_to_end _ _ _ Hg) as [Hne Hrest].
    destruct g as [|d g]; [done|]. simpl in Hs. injection Hs as -> ->.
    simpl. rewrite cut_skip, cut_end by done.
    exists 0%nat, rest. split; [done|]. destruct Hrest as [->| ->]; simpl; lia.
  - destruct (IH (S p)) as (n & e & -> & He).
    by exists (S n), e.
Qed.

(** Either nothing is cut, or the text is cut at its first match. *)
Lemma cut_first (s : list N) :
  forall p,
    cut false r p 0 s = s
    \/ exists a g e,
         s = a ++ g ++ e /\ cut false r p 0 s = a ++ e
         /\ lang false r (p + length a) g e.
Proof.
  induction s as [|c s IH]; intros p; [by left|].
  change (cut false r p 0 (c :: s))
    with (match match_at false (Plain r) p (c :: s) with
          | Some (_, O) => c :: cut false r (S p) 0 s
          | Some (_, S n) => cut false r (S p) n s
          | None => c :: cut false r (S p) 0 s
          end).
  destruct (match_at false (Plain r) p (c :: s)) as [[g n]|] eqn:Hm.
  - apply match_at_plain in Hm as (rest & Hs & Hg & ->). right.
    destruct (match_to_end _ _ _ Hg) as [Hne Hrest].
    exists [], g, rest. simpl. rewrite Nat.add_0_r. split; [done|].
    split; [|done].
    destruct g as [|d g]; [done|]. simpl in Hs. injection Hs as -> ->.
    simpl. by rewrite cut_skip, cut_end.
  - destruct (IH (S p)) as [->|(a & g & e & -> & -> & Hg)]; [by left|].
    right. exists (c :: a), g, e. simpl.
    by rewrite Nat.add_succ_r.
Qed.

Lemma cut_keeps_start (s : list N) (k : nat) :
  (k < length (sub_empty false r s))%nat ->
  take k (sub_empty false r s) = take k s /\ (k <= length s)%nat.
Proof.
  unfold sub_empty. destruct (cut_shape s 0) as (n & e & -> & He).
  rewrite length_app, length_take. intros Hk.
  rewrite take_app_le by (rewrite length_take; lia).
  rewrite take_take. split; [f_equal|]; lia.
Qed.

End Cut.

Section Clean.
Context {U : Unicode}.

Lemma markup_tail_to_end (p : nat) (g rest : list N) :
  lang false markup_tail p g rest ->
  g <> [] /\ (rest = [] \/ rest = [newline]).
Proof.
  unfold markup_tail.
  intros (w1 & v1 & -> & (_ & Hlen & _) & Hg)%lang_cat_cons.
  apply lang_cat_cons in Hg as (w2 & w3 & -> & _ & [-> Hrest]).
  split; [|done]. destruct w1; [simpl in Hlen; lia|done].
Qed.

Lemma amp_tail_to_end (p : nat) (g rest : list N) :
  lang false amp_tail p g rest ->
  g <> [] /\ (rest = [] \/ rest = [newline]).
Proof.
  unfold amp_tail.
  intros (w1 & v1 & -> & ->%lang_lits & Hg)%lang_cat_cons.
  apply lang_cat_cons in Hg as (w2 & w3 & -> & _ & [-> Hrest]).
  by split.
Qed.

Lemma markup_tail_newline (p : nat) :
  match_at false (Plain markup_tail) p [newline] = None.
Proof. reflexivity. Qed.

Lemma amp_tail_newline (p : nat) :
  match_at false (Plain amp_tail) p [newline] = None.
Proof. reflexivity. Qed.

(** A cleaned link of more than 30 characters starts as the link it
    was made from. *)
Lemma clean_keeps_start (link : list N) :
  (30 < length (clean link))%nat -> take 29 (clean link) = take 29 link.
Proof.
  unfold clean. intros Hlen.
  destruct (cut_keeps_start amp_tail amp_tail_to_end amp_tail_newline
              (sub_empty false markup_tail link) 30 Hlen) as [_ Hlen'].
  destruct (cut_keeps_start amp_tail amp_tail_to_end amp_tail_newline
              (sub_empty false markup_tail link) 29) as [-> _]; [lia|].
  destruct (cut_keeps_start markup_tail markup_tail_to_end
              markup_tail_newline link 29) as [-> _]; [lia|done].
Qed.

Lemma clean_keeps_site (site link : list N) :
  (length site <= 29)%nat ->
  site `prefix_of` link ->
  (30 < length (clean link))%nat ->
  site `prefix_of` clean link.
Proof.
  intros Hsite [k ->] Hlen.
  pose proof (clean_keeps_start _ Hlen) as Htake.
  rewrite (take_app_ge site) in Htake by done.
  exists (take (29 - length site) k ++ drop 29 (clean (site ++ k))).
  by rewrite app_assoc, <-Htake, take_drop.
Qed.

(** The matches of a URL pattern start with the site of the pattern. *)
Lemma lang_site (site : string) (rs : list regex) (p : nat)
    (g rest : list N) :
  lang false (cat (lit site :: rs)) p g rest -> str site `prefix_of` g.
Proof.
  intros (w1 & w2 & -> & ->%lang_lits & _)%lang_cat_cons. by exists w2.
Qed.

Lemma accepted_site (site : string) (rs : list regex)
    (content l : list N) :
  (length (str site) <= 29)%nat ->
  l ∈ accepted (cat (lit site :: rs)) content -> str site `prefix_of` l.
Proof.
  intros Hsite. unfold accepted.
  intros [Hl%Is_true_true Hin]%(list_elem_of_filter
                                  (fun l => is_product_page l)).
  apply list_elem_of_fmap in Hin as (m & -> & Hm).
  apply findall_plain in Hm as (p & rest & Hm%lang_site).
  apply clean_keeps_site; [done..|].
  by destruct (is_product_page_spec _ Hl) as (_ & ? & _).
Qed.

End Clean.

(** ** The token of the marketplace *)

(** Where a character that [T0] does not hold sits in [H ++ T0 ++ T1]:
    inside [H], or after [T0]. *)
Lemma split_at {A} (P : A -> Prop) (a x H T0 T1 : list A) (c : A) :
  P c -> Forall (fun y => ~ P y) T0 ->
  a ++ c :: x = H ++ T0 ++ T1 ->
  (exists h, H = a ++ c :: h) \/ (exists t, a = H ++ T0 ++ t).
Proof.
  intros Hc HT0 [(k & -> & Hk)|(k & -> & Hk)]%app_eq_inv.
  - symmetry in Hk.
    apply app_eq_inv in Hk as [(k' & -> & Hk')|(k' & -> & Hk')].
    + right. by exists k'.
    + destruct k' as [|d k'].
      * right. exists []. by rewrite !app_nil_r.
      * injection Hk' as <- _. apply Forall_app in HT0 as [_ HT0].
        by apply Forall_cons_1 in HT0 as [? _].
  - destruct k as [|d k].
    + destruct T0 as [|d T0].
      * right. exists []. by rewrite !app_nil_r.
      * injection Hk as <- _. by apply Forall_cons_1 in HT0 as [? _].
    + injection Hk as -> _. left. by exists k.
Qed.

Lemma split_inside {A} (P : A -> Prop) (a x H T : list A) (c : A) :
  P c -> Forall (fun y => ~ P y) T ->
  a ++ c :: x = H ++ T -> exists h, H = a ++ c :: h.
Proof.
  intros Hc HT Heq.
  destruct (split_at P a x H T [] c Hc HT) as [?|[t ->]]; [|done|].
  { by rewrite app_nil_r. }
  apply (f_equal length) in Heq.
  rewrite !length_app in Heq. simpl in Heq. lia.
Qed.

Section OwnToken.
Context {U : Unicode}.

Lemma markup_tail_first (p : nat) (g e : list N) :
  lang false markup_tail p g e ->
  exists c g', g = c :: g' /\ atom_ok false markup_char c = true.
Proof.
  unfold markup_tail.
  intros (w1 & v1 & -> & (Hw & Hlen & _) & _)%lang_cat_cons.
  destruct Hw as [|c w1 Hc _]; [simpl in Hlen; lia|].
  by exists c, (w1 ++ v1).
Qed.

Lemma amp_tail_first (p : nat) (g e : list N) :
  lang false amp_tail p g e -> exists g', g = ampersand :: g'.
Proof.
  unfold amp_tail.
  intros (w1 & v1 & -> & ->%lang_lits & _)%lang_cat_cons.
  by eexists.
Qed.

Lemma page_tokens_end (t : list N) :
  t ∈ page_tokens -> exists t0, t = t0 ++ [slash].
Proof.
  unfold page_tokens. rewrite !elem_of_cons.
  intros [->|[->|[->|?%elem_of_nil]]]; [| |by exists (str "itm")|done].
  - by exists (str "dp").
  - by exists (str "/p").
Qed.

Lemma end_no_slash (e : list N) :
  e = [] \/ e = [newline] -> Forall (fun c => ~ c = slash) e.
Proof. intros [->| ->]; by repeat constructor. Qed.

Lemma end_no_ampersand (e : list N) :
  e = [] \/ e = [newline] -> Forall (fun c => ~ c = ampersand) e.
Proof. intros [->| ->]; by repeat constructor. Qed.

(** A text cut inside the first segment of the path holds no token: its
    slashes are those of the site. *)
Lemma no_token_in_head (site seg a e t : list N) :
  (forall t, t ∈ page_tokens -> contains t site = false) ->
  Forall (fun c => ~ c = slash) seg ->
  a `prefix_of` site ++ seg ->
  Forall (fun c => ~ c = slash) e ->
  t ∈ page_tokens -> contains t (a ++ e) = true -> False.
Proof.
  intros Hsite Hseg [k Hk] He Ht (x & y & Hx)%contains_spec.
  destruct (page_tokens_end t Ht) as [t0 ->].
  assert (exists h, a = (x ++ t0) ++ slash :: h) as [h ->].
  { apply (split_inside (fun c => c = slash) _ y _ e); [done..|].
    by rewrite Hx, <-!app_assoc. }
  assert (exists h', site = (x ++ t0) ++ slash :: h') as [h' Hs].
  { apply (split_inside (fun c => c = slash) _ (h ++ k) _ seg); [done..|].
    by rewrite Hk, <-!app_assoc. }
  specialize (Hsite _ Ht).
  assert (contains (t0 ++ [slash]) site = true) as Hyes; [|congruence].
  apply contains_spec. exists x, h'. by rewrite Hs, <-!app_assoc.
Qed.

(** A valid cleaned link that comes from a match of a pattern
    [site segment token id tail] still holds the token. *)
Lemma clean_own_token (site seg tok id tail : list N) :
  (forall t, t ∈ page_tokens -> contains t site = false) ->
  Forall (fun c => ~ c = slash) seg ->
  Forall (fun c => ~ atom_ok false markup_char c = true) (tok ++ id ++ tail) ->
  Forall (fun c => ~ c = ampersand) (tok ++ id) ->
  is_product_page (clean (site ++ seg ++ tok ++ id ++ tail)) = true ->
  contains tok (clean (site ++ seg ++ tok ++ id ++ tail)) = true.
Proof.
  intros Hsite Hseg Hmark Hamp Hvalid.
  destruct (is_product_page_spec _ Hvalid) as (_ & _ & t & x & y & Ht & Hl).
  assert (contains t (clean (site ++ seg ++ tok ++ id ++ tail)) = true)
    as Htok by (apply contains_spec; eauto).
  clear Hvalid x y Hl. revert Htok. unfold clean, sub_empty.
  destruct (cut_first markup_tail markup_tail_to_end markup_tail_newline
              (site ++ seg ++ tok ++ id ++ tail) 0)
    as [->|(a & g & e & Hm & -> & Hg)].
  - destruct (cut_first amp_tail amp_tail_to_end amp_tail_newline
                (site ++ seg ++ tok ++ id ++ tail) 0)
      as [->|(a2 & g2 & e2 & Hm2 & -> & Hg2)]; intros Htok.
    + apply contains_spec. exists (site ++ seg), (id ++ tail).
      by rewrite <-!app_assoc.
    + destruct (amp_tail_to_end _ _ _ Hg2) as [_ He2].
      apply amp_tail_first in Hg2 as [g2' ->].
      destruct (split_at (fun c => c = ampersand) a2 (g2' ++ e2)
                  (site ++ seg) (tok ++ id) tail ampersand)
        as [[h Hh]|[t' ->]]; [done|done| | |].
      * rewrite <-!app_assoc. symmetry. exact Hm2.
      * exfalso. apply (no_token_in_head site seg a2 e2 t); try done.
        -- by exists (ampersand :: h).
        -- by apply end_no_slash.
      * apply contains_spec. exists (site ++ seg), (id ++ t' ++ e2).
        by rewrite <-!app_assoc.
  - destruct (markup_tail_to_end _ _ _ Hg) as [_ He].
    apply markup_tail_first in Hg as (c & g' & -> & Hc).
    destruct (split_inside (fun c => atom_ok false markup_char c = true)
                a (g' ++ e) (site ++ seg) (tok ++ id ++ tail) c)
      as [h Hh]; [done|done| |].
    { rewrite <-!app_assoc. symmetry. exact Hm. }
    assert (a `prefix_of` site ++ seg) as Ha.
    { exists (c :: h). by rewrite Hh. }
    destruct (cut_first amp_tail amp_tail_to_end amp_tail_newline (a ++ e) 0)
      as [->|(a2 & g2 & e2 & Hm2 & -> & Hg2)]; intros Htok; exfalso.
    + apply (no_token_in_head site seg a e t); try done.
      by apply end_no_slash.
    + destruct (amp_tail_to_end _ _ _ Hg2) as [_ He2].
      apply amp_tail_first in Hg2 as [g2' ->].
      destruct (split_inside (fun c => c = ampersand) a2 (g2' ++ e2) a e
                  ampersand) as [h2 Hh2]; [done| |symmetry; exact Hm2|].
      { by apply end_no_ampersand. }
      apply (no_token_in_head site seg a2 e2 t); try done.
      * destruct Ha as [k Hk]. exists (ampersand :: h2 ++ k).
        by rewrite Hk, Hh2, <-!app_assoc.
      * by apply end_no_slash.
Qed.

End OwnToken.

Section ProductPages.
Context {U : Unicode}.

Lemma not_slash_spec (c : N) :
  atom_ok false not_slash c = true -> c <> slash.
Proof. simpl. intros Hc ->. by vm_compute in Hc. Qed.

Lemma markup_char_spec (c : N) :
  atom_ok false markup_char c = true ->
  c = chr "<" \/ c = chr ">" \/ c = dquote \/ c = squote.
Proof.
  simpl. rewrite !orb_true_iff, !N.eqb_eq. intros [?|[?|[?|[?|?]]]]; auto.
  done.
Qed.

Lemma upper_or_digit_plain (c : N) :
  atom_ok false upper_or_digit c = true ->
  ~ atom_ok false markup_char c = true /\ c <> ampersand.
Proof.
  intros Hc. split.
  - intros [->|[->|[->| ->]]]%markup_char_spec; by vm_compute in Hc.
  - intros ->. by vm_compute in Hc.
Qed.

Lemma lower_or_digit_plain (c : N) :
  atom_ok false lower_or_digit c = true ->
  ~ atom_ok false markup_char c = true /\ c <> ampersand.
Proof.
  intros Hc. split.
  - intros [->|[->|[->| ->]]]%markup_char_spec; by vm_compute in Hc.
  - intros ->. by vm_compute in Hc.
Qed.

Lemma url_char_plain (c : N) :
  atom_ok false url_char c = true -> ~ atom_ok false markup_char c = true.
Proof.
  simpl. destruct (isspace c); [done|]. simpl.
  by destruct (_ || _).
Qed.

(** The shape of a match of the Amazon and of the Flipkart pattern. *)
Lemma lang_product_page (site tok : string) (cls : atom) (p : nat)
    (m rest : list N) :
  lang false
    (cat [lit site; plus not_slash; lit tok; plus cls; star url_char])
    p m rest ->
  exists seg id tail,
    m = str site ++ seg ++ str tok ++ id ++ tail
    /\ Forall (fun c => atom_ok false not_slash c = true) seg
    /\ Forall (fun c => atom_ok false cls c = true) id
    /\ Forall (fun c => atom_ok false url_char c = true) tail.
Proof.
  intros (w1 & v1 & -> & ->%lang_lits & Hm)%lang_cat_cons.
  apply lang_cat_cons in Hm as (seg & v2 & -> & (Hseg & _) & Hm).
  apply lang_cat_cons in Hm as (w3 & v3 & -> & ->%lang_lits & Hm).
  apply lang_cat_cons in Hm as (id & tail & -> & (Hid & _) & (Htail & _)).
  by exists seg, id, tail.
Qed.

Lemma accepted_own_token (site tok : string) (cls : atom)
    (content l : list N) :
  (forall t, t ∈ page_tokens -> contains t (str site) = false) ->
  Forall (fun c => ~ atom_ok false markup_char c = true /\ c <> ampersand)
         (str tok) ->
  (forall c, atom_ok false cls c = true ->
     ~ atom_ok false markup_char c = true /\ c <> ampersand) ->
  l ∈ accepted
        (cat [lit site; plus not_slash; lit tok; plus cls; star url_char])
        content ->
  contains (str tok) l = true.
Proof.
  intros Hsite Htok Hcls. unfold accepted.
  intros [Hl%Is_true_true Hin]%(list_elem_of_filter
                                  (fun l => is_product_page l)).
  apply list_elem_of_fmap in Hin as (m & -> & Hm).
  apply findall_plain in Hm as (p & rest & Hm).
  apply lang_product_page in Hm as (seg & id & tail & -> & Hseg & Hid & Htail).
  apply clean_own_token; [done| | | |done].
  - eapply Forall_impl; [exact Hseg|]. apply not_slash_spec.
  - rewrite !Forall_app. split; [|split].
    + eapply Forall_impl; [exact Htok|]. by intros c [? _].
    + eapply Forall_impl; [exact Hid|]. intros c Hc. by apply Hcls.
    + eapply Forall_impl; [exact Htail|]. apply url_char_plain.
  - rewrite Forall_app. split.
    + eapply Forall_impl; [exact Htok|]. by intros c [_ ?].
    + eapply Forall_impl; [exact Hid|]. intros c Hc. by apply Hcls.
Qed.

Lemma no_token_in_site (site : list N) :
  contains (str "dp/") site = false ->
  contains (str "/p/") site = false ->
  contains (str "itm/") site = false ->
  forall t, t ∈ page_tokens -> contains t site = false.
Proof.
  intros H1 H2 H3 t. unfold page_tokens. rewrite !elem_of_cons.
  by intros [->|[->|[->|?%elem_of_nil]]].
Qed.

Lemma accepted_amazon_token (content l : list N) :
  l ∈ accepted amazon_pattern content -> contains (str "/dp/") l = true.
Proof.
  apply (accepted_own_token "https://www.amazon.in/" "/dp/" upper_or_digit).
  - by apply no_token_in_site.
  - repeat constructor; by vm_compute.
  - apply upper_or_digit_plain.
Qed.

Lemma accepted_flipkart_token (content l : list N) :
  l ∈ accepted flipkart_pattern content -> contains (str "/p/") l = true.
Proof.
  apply (accepted_own_token "https://www.flipkart.com/" "/p/" lower_or_digit).
  - by apply no_token_in_site.
  - repeat constructor; by vm_compute.
  - apply lower_or_digit_plain.
Qed.

End ProductPages.

(** ** The order of the links *)

(** Inserting the keys of [l] into a dict that holds [keys] appends the
    new ones, in the order of [l]. *)
Lemma fromkeys_from (l keys : list (list N)) :
  exists new,
    foldl (fun keys k => if bool_decide (k ∈ keys) then keys else keys ++ [k])
          keys l
    = keys ++ new
    /\ new `sublist_of` l
    /\ (forall x, x ∈ new <-> x ∈ l /\ x ∉ keys).
Proof.
  revert keys. induction l as [|k l IH]; intros keys; simpl.
  { exists []. rewrite app_nil_r. split; [done|]. split; [done|].
    intros x. split; [by intros ?%elem_of_nil|by intros [?%elem_of_nil _]]. }
  case_bool_decide as Hk.
  - destruct (IH keys) as (new & -> & Hsub & Hel). exists new.
    split; [done|]. split; [by apply sublist_cons|].
    intros x. rewrite Hel, elem_of_cons. split; [tauto|].
    intros [[->|Hx] Hnot]; [done|tauto].
  - destruct (IH (keys ++ [k])) as (new & -> & Hsub & Hel). exists (k :: new).
    split; [by rewrite <-app_assoc|]. split; [by apply sublist_skip|].
    intros x. rewrite !elem_of_cons, Hel, elem_of_app, list_elem_of_singleton.
    split.
    + intros [->|[Hx Hnot]]; [tauto|]. split; [tauto|]. intros ?. tauto.
    + intros [[->|Hx] Hnot]; [tauto|].
      destruct (decide (x = k)) as [->|Hne]; [tauto|]. right. tauto.
Qed.

Section Marketplaces.
Context {U : Unicode}.

Lemma clean_links_by_pattern (content : list N) :
  clean_links content
  = accepted amazon_pattern content ++ accepted flipkart_pattern content
    ++ accepted ebay_pattern content.
Proof.
  unfold clean_links, all_links, accepted, url_patterns.
  rewrite !bind_cons. change (@nil pattern ≫= _) with (@nil (list N)).
  by rewrite app_nil_r, !fmap_app, !filter_app.
Qed.

Lemma accepted_amazon (content l : list N) :
  l ∈ accepted amazon_pattern content -> amazon_site `prefix_of` l.
Proof. apply (accepted_site "https://www.amazon.in/"). vm_compute. lia. Qed.

Lemma accepted_flipkart (content l : list N) :
  l ∈ accepted flipkart_pattern content -> flipkart_site `prefix_of` l.
Proof. apply (accepted_site "https://www.flipkart.com/"). vm_compute. lia. Qed.

Lemma accepted_ebay (content l : list N) :
  l ∈ accepted ebay_pattern content -> ebay_site `prefix_of` l.
Proof. apply (accepted_site "https://www.ebay.com/itm/"). vm_compute. lia. Qed.

(** A match of a URL pattern is not empty. *)
Lemma url_match_consumes (pat : pattern) (p : nat) (s g : list N)
    (n : nat) :
  pat ∈ url_patterns -> match_at false pat p s = Some (g, n) ->
  (0 < n)%nat.
Proof.
  unfold url_patterns. rewrite !elem_of_cons.
  intros [->|[->|[->|?%elem_of_nil]]]; [| | |done];
    intros (rest & _ & Hg & ->)%match_at_plain.
  - unfold amazon_pattern in Hg. apply lang_site in Hg as [k ->].
    rewrite length_app. cbn. lia.
  - unfold flipkart_pattern in Hg. apply lang_site in Hg as [k ->].
    rewrite length_app. cbn. lia.
  - unfold ebay_pattern in Hg. apply lang_site in Hg as [k ->].
    rewrite length_app. cbn. lia.
Qed.

Lemma amazon_not_flipkart (l : list N) :
  amazon_site `prefix_of` l -> flipkart_site `prefix_of` l -> False.
Proof. by intros [k1 ->] [k2 [=]]. Qed.

Lemma amazon_not_ebay (l : list N) :
  amazon_site `prefix_of` l -> ebay_site `prefix_of` l -> False.
Proof. by intros [k1 ->] [k2 [=]]. Qed.

Lemma flipkart_not_ebay (l : list N) :
  flipkart_site `prefix_of` l -> ebay_site `prefix_of` l -> False.
Proof. by intros [k1 ->] [k2 [=]]. Qed.

(** C10: the links returned are the first three of a list made of the
    accepted Amazon links, which hold [/dp/], then the accepted Flipkart
    links, which hold [/p/], then the accepted eBay [/itm/] links; each
    group holds every accepted link of its pattern, in the order in
    which [findall] reports them, and [findall] reports the matches of a
    pattern by increasing offset in the content. *)
Theorem links_in_by_marketplace (content : list N) :
  exists amazon flipkart ebay,
    links_in content = take 3 (amazon ++ flipkart ++ ebay)
    /\ (amazon `sublist_of` accepted amazon_pattern content
        /\ (forall l, l ∈ amazon <-> l ∈ accepted amazon_pattern content)
        /\ Forall (fun l => amazon_site `prefix_of` l
                            /\ contains (str "/dp/") l = true) amazon)
    /\ (flipkart `sublist_of` accepted flipkart_pattern content
        /\ (forall l, l ∈ flipkart <-> l ∈ accepted flipkart_pattern content)
        /\ Forall (fun l => flipkart_site `prefix_of` l
                            /\ contains (str "/p/") l = true) flipkart)
    /\ (ebay `sublist_of` accepted ebay_pattern content
        /\ (forall l, l ∈ ebay <-> l ∈ accepted ebay_pattern content)
        /\ Forall (fun l => ebay_site `prefix_of` l) ebay)
    /\ (forall pat,
          findall false pat content = (occurrences false pat content).*2
          /\ StronglySorted lt (occurrences false pat content).*1).
Proof.
  unfold links_in, fromkeys. rewrite clean_links_by_pattern, !foldl_app.
  destruct (fromkeys_from (accepted amazon_pattern content) [])
    as (a & -> & Ha & Hina).
  destruct (fromkeys_from (accepted flipkart_pattern content) ([] ++ a))
    as (f & -> & Hf & Hinf).
  destruct (fromkeys_from (accepted ebay_pattern content) (([] ++ a) ++ f))
    as (e & -> & He & Hine).
  exists a, f, e. simpl. rewrite <-app_assoc. split; [done|].
  assert (forall l, l ∈ a <-> l ∈ accepted amazon_pattern content) as Ha'.
  { intros l. rewrite Hina. split; [tauto|]. intros Hl. split; [done|].
    apply not_elem_of_nil. }
  assert (forall l, l ∈ f <-> l ∈ accepted flipkart_pattern content) as Hf'.
  { intros l. rewrite Hinf. split; [tauto|]. intros Hl. split; [done|].
    simpl. intros Hl'%Ha'.
    eauto using amazon_not_flipkart, accepted_amazon, accepted_flipkart. }
  assert (forall l, l ∈ e <-> l ∈ accepted ebay_pattern content) as He'.
  { intros l. rewrite Hine. split; [tauto|]. intros Hl. split; [done|].
    simpl. intros [Hl'%Ha'|Hl'%Hf']%elem_of_app.
    - eauto using amazon_not_ebay, accepted_amazon, accepted_ebay.
    - eauto using flipkart_not_ebay, accepted_flipkart, accepted_ebay. }
  repeat split; try done; try apply Ha'; try apply Hf'; try apply He'.
  - apply Forall_forall. intros l Hl%Ha'.
    eauto using accepted_amazon, accepted_amazon_token.
  - apply Forall_forall. intros l Hl%Hf'.
    eauto using accepted_flipkart, accepted_flipkart_token.
  - apply Forall_forall. intros l Hl%He'. by eapply accepted_ebay.
  - apply findall_occurrences.
  - apply scan_pos_increasing.
Qed.

(** C5: [search_links] keeps at most three links, all distinct, in the
    order in which they are first seen among the valid cleaned links;
    each starts with [http://] or [https://], has at least 30
    characters (more than 30 indeed), and holds the product-page token
    of its marketplace: [/dp/] on Amazon, [/p/] on Flipkart, [itm/] on
    eBay. *)
Theorem links_in_valid (content : list N) :
  let links := links_in content in
  (length links <= 3)%nat
  /\ NoDup links
  /\ (forall i j x y,
        (i < j)%nat -> links !! i = Some x -> links !! j = Some y ->
        exists a b,
          first_seen x (clean_links content) = Some a
          /\ first_seen y (clean_links content) = Some b /\ (a < b)%nat)
  /\ (forall l, l ∈ links ->
        (str "http://" `prefix_of` l \/ str "https://" `prefix_of` l)
        /\ (30 <= length l)%nat
        /\ (exists token, token ∈ page_tokens /\ contains token l = true)
        /\ ((amazon_site `prefix_of` l /\ contains (str "/dp/") l = true)
            \/ (flipkart_site `prefix_of` l
                /\ contains (str "/p/") l = true)
            \/ (ebay_site `prefix_of` l
                /\ contains (str "itm/") l = true))).
Proof.
  cbv zeta. split; [|split; [|split]].
  - unfold links_in. rewrite length_take. lia.
  - unfold links_in.
    exact (sublist_NoDup _ _ (NoDup_fromkeys _) (sublist_take _ _)).
  - unfold links_in. intros i j x y Hij [Hx _]%lookup_take_Some
      [Hy _]%lookup_take_Some.
    by apply (fromkeys_first_seen _ i j).
  - intros l Hl%elem_of_links_in.
    assert (is_product_page l = true) as Hvalid.
    { unfold clean_links in Hl.
      by apply (list_elem_of_filter (fun l => is_product_page l)) in Hl
        as [Hl%Is_true_true _]. }
    destruct (is_product_page_spec l Hvalid)
      as (Hs & Hlen & t & a & b & Ht & Htok).
    split; [done|]. split; [lia|]. split.
    { exists t. split; [done|]. apply contains_spec. eauto. }
    rewrite clean_links_by_pattern, !elem_of_app in Hl.
    destruct Hl as [Hl|[Hl|Hl]].
    + left. eauto using accepted_amazon, accepted_amazon_token.
    + right. left. eauto using accepted_flipkart, accepted_flipkart_token.
    + right. right. apply accepted_ebay in Hl as Hsite.
      split; [done|]. destruct Hsite as [k ->].
      apply contains_spec. by exists (str "https://www.ebay.com/"), k.
Qed.

End Marketplaces.

(** ** [asyncio.gather] and [crawl_price] *)

Section Gather.
Context {A : Type}.

(** Once every pending coroutine has completed, every slot holds the
    result of its own coroutine, whatever the order of completion. *)
Lemma complete_fills (pick : nat -> nat) (tasks : list A) (fuel : nat) :
  forall step pending slots,
    fuel = length pending ->
    length slots = length tasks ->
    (forall i, (i < length tasks)%nat -> i ∉ pending ->
       slots !! i = Some (tasks !! i)) ->
    Some <$> tasks = complete pick step tasks fuel pending slots.
Proof.
  induction fuel as [|fuel IH]; intros step pending slots Hf Hlen Hs.
  - destruct pending; [|done]. simpl.
    apply list_eq. intros i. rewrite list_lookup_fmap.
    destruct (decide (i < length tasks)%nat) as [Hi|Hi].
    + rewrite (Hs i Hi) by apply not_elem_of_nil.
      by destruct (lookup_lt_is_Some_2 tasks i Hi) as [x ->].
    + rewrite !lookup_ge_None_2 by lia. done.
  - simpl.
    assert (pick step mod length pending < length pending)%nat as Hplace.
    { apply Nat.mod_upper_bound. lia. }
    set (place := (pick step mod length pending)%nat) in *.
    destruct (lookup_lt_is_Some_2 pending place Hplace) as [i Hi].
    rewrite Hi. apply IH.
    + rewrite length_delete by eauto. lia.
    + by rewrite length_insert.
    + intros j Hj Hnot.
      destruct (decide (i = j)) as [->|Hne].
      * apply list_lookup_insert_eq. lia.
      * rewrite list_lookup_insert_ne by done. apply Hs; [done|].
        intros (k & Hk)%list_elem_of_lookup. apply Hnot.
        apply list_elem_of_lookup.
        destruct (decide (k < place)%nat).
        { exists k. by rewrite list_lookup_delete_lt. }
        destruct (decide (k = place)) as [->|]; [congruence|].
        exists (pred k). rewrite list_lookup_delete_ge by lia.
        by replace (S (pred k)) with k by lia.
Qed.

Lemma omap_id_Some (l : list A) : omap id (Some <$> l) = l.
Proof. induction l as [|x l IH]; [done|]. csimpl. by f_equal. Qed.


End Gather.

Lemma gather_results {A} (pick : nat -> nat)
    (coros : list (traced (option A))) :
  (gather pick coros).1 = mapM id (fst <$> coros).
Proof.
  unfold gather. cbn [fst]. f_equal.
  rewrite <-(complete_fills pick (fst <$> coros) (length coros)).
  - apply omap_id_Some.
  - by rewrite length_seq.
  - by rewrite length_replicate, length_fmap.
  - intros i Hi Hnot. rewrite length_fmap in Hi. exfalso. apply Hnot.
    apply elem_of_seq. unfold traced in *. lia.
Qed.

Section CrawlPriceClaims.
Context {U : Unicode} {C : Console}.

(** What [crawl_price] returns when the fetch returns and when it
    raises. *)
Lemma crawl_price_page (arun : profile -> list N -> page + list N)
    link result :
  arun page_profile link = inl result ->
  (crawl_price arun link).1
  = Some {| url := link;
            price :=
              extract_price
                (or_empty (cleaned_html result) ++ str " "
                   ++ or_empty (markdown result)) link;
            error := None |}.
Proof.
  intros Hr. unfold crawl_price, fetch. rewrite traced_bind_fst.
  cbn [fst]. by rewrite Hr.
Qed.

Lemma crawl_price_failure (arun : profile -> list N -> page + list N)
    link e :
  arun page_profile link = inr e ->
  (crawl_price arun link).1
  = if print (crawl_error_line link e)
    then Some {| url := link; price := None; error := Some e |}
    else None.
Proof.
  intros He. unfold crawl_price, fetch. rewrite traced_bind_fst.
  cbn [fst]. rewrite He. by destruct (print _).
Qed.

Lemma crawl_price_url (arun : profile -> list N -> page + list N) link r :
  (crawl_price arun link).1 = Some r -> url r = link.
Proof.
  destruct (arun page_profile link) as [result|e] eqn:Hf.
  - rewrite (crawl_price_page _ _ _ Hf). by intros [= <-].
  - rewrite (crawl_price_failure _ _ _ Hf).
    destruct (print _); [|done]. by intros [= <-].
Qed.







End CrawlPriceClaims.






(** ** The aggregation in [best_price] *)

Section MinBy.
Context {A : Type} (key : A -> Z).

Lemma min_by_cons (best item : A) (rest : list A) :
  min_by key best (item :: rest)
  = min_by key (if key item <? key best then item else best) rest.
Proof. reflexivity. Qed.

(** [min_by] returns an element whose key is smallest, and the first
    such element: the elements before it have strictly larger keys. *)
Lemma min_by_scan (others l1 l2 : list A) (best : A) :
  (forall x, x ∈ l1 -> key best < key x) ->
  (forall x, x ∈ l2 -> key best <= key x) ->
  exists k1 k2,
    l1 ++ best :: l2 ++ others = k1 ++ min_by key best others :: k2
    /\ (forall x, x ∈ k1 -> key (min_by key best others) < key x)
    /\ (forall x, x ∈ k2 -> key (min_by key best others) <= key x).
Proof.
  revert l1 l2 best.
  induction others as [|item rest IH]; intros l1 l2 best H1 H2.
  { exists l1, l2. by rewrite app_nil_r. }
  rewrite min_by_cons.
  destruct (Z.ltb_spec (key item) (key best)) as [Hlt|Hge].
  - destruct (IH (l1 ++ best :: l2) [] item) as (k1 & k2 & Heq & Hk1 & Hk2).
    + intros x [Hx|[ -> |Hx]%elem_of_cons]%elem_of_app.
      * specialize (H1 _ Hx). lia.
      * done.
      * specialize (H2 _ Hx). lia.
    + by intros x ?%elem_of_nil.
    + exists k1, k2. split; [|done]. rewrite <-Heq.
      by rewrite <-!app_assoc.
  - destruct (IH l1 (l2 ++ [item]) best) as (k1 & k2 & Heq & Hk1 & Hk2).
    + done.
    + intros x [Hx| ->%list_elem_of_singleton]%elem_of_app; [by apply H2|done].
    + exists k1, k2. split; [|done]. rewrite <-Heq.
      by rewrite <-!app_assoc.
Qed.

Lemma min_by_first (first : A) (others : list A) :
  exists k1 k2,
    first :: others = k1 ++ min_by key first others :: k2
    /\ (forall x, x ∈ k1 -> key (min_by key first others) < key x)
    /\ (forall x, x ∈ k2 -> key (min_by key first others) <= key x).
Proof.
  apply (min_by_scan others [] [] first); by intros x ?%elem_of_nil.
Qed.

End MinBy.

(** Where a filtered list splits, the list splits. *)
Lemma filter_split {A} (P : A -> Prop) `{!forall x, Decision (P x)}
    (l l1 l2 : list A) (b : A) :
  filter P l = l1 ++ b :: l2 ->
  exists k1 k2, l = k1 ++ b :: k2 /\ filter P k1 = l1 /\ filter P k2 = l2.
Proof.
  revert l1. induction l as [|x l IH]; intros l1 Hf.
  { by destruct l1. }
  rewrite filter_cons in Hf. destruct (decide (P x)) as [Hx|Hx].
  - destruct l1 as [|y l1]; simplify_eq/=.
    + exists [], l. by rewrite filter_nil.
    + destruct (IH l1) as (k1 & k2 & -> & <- & <-); [done|].
      exists (y :: k1), k2. by rewrite filter_cons_True.
  - destruct (IH l1 Hf) as (k1 & k2 & -> & <- & <-).
    exists (x :: k1), k2. by rewrite filter_cons_False.
Qed.

(** C3: [best] is null when no observation has a price; otherwise it is
    an observation of [all] with a price, that price is the least of
    the prices in [all], and every observation before it in [all] with
    a price has a strictly greater one. *)
Theorem report_best (product : list N) (links : list (list N))
    (results : list observation) :
  exists best,
    report product links results
    = {| status := 200;
         payload := Report product best results (length links) |}
    /\ ((forall r, r ∈ results -> price r = None) -> best = None)
    /\ ((exists r, r ∈ results /\ price r <> None) ->
        exists i b p,
          best = Some b /\ results !! i = Some b /\ price b = Some p
          /\ (forall r q, r ∈ results -> price r = Some q -> p <= q)
          /\ (forall j r q, (j < i)%nat -> results !! j = Some r ->
                price r = Some q -> p < q)).
Proof.
  unfold report.
  remember (filter (fun r => price r <> None) results) as priced eqn:Hdef.
  assert (forall r, r ∈ priced <-> price r <> None /\ r ∈ results) as Hpriced.
  { intros r. rewrite Hdef.
    apply (list_elem_of_filter (fun r => price r <> None)). }
  eexists. split; [reflexivity|]. split.
  - intros Hnone. destruct priced as [|r rs]; [done|].
    destruct (proj1 (Hpriced r) (list_elem_of_here _ _)) as [Hr Hin].
    by specialize (Hnone r Hin).
  - intros (r0 & Hin0 & Hp0).
    assert (r0 ∈ priced) as Hr0 by by apply Hpriced.
    destruct priced as [|r rs]; [by apply elem_of_nil in Hr0|].
    destruct (min_by_first price_key r rs) as (l1 & l2 & Hsplit & Hl1 & Hl2).
    set (b := min_by price_key r rs) in *.
    destruct (filter_split (fun r => price r <> None) results l1 l2 b)
      as (k1 & k2 & Hres & Hk1 & Hk2).
    { by rewrite <-Hdef, Hsplit. }
    assert (price b <> None) as Hb.
    { apply (Hpriced b). rewrite Hsplit. apply elem_of_app. right. left. }
    destruct (price b) as [p|] eqn:Hpb; [|done].
    exists (length k1), b, p. split; [done|]. split.
    { rewrite Hres. by apply list_lookup_middle. }
    split; [done|]. split.
    + intros x q Hx Hq.
      assert (x ∈ l1 ++ b :: l2) as Hin.
      { rewrite <-Hsplit. apply Hpriced. by rewrite Hq. }
      apply elem_of_app in Hin as [Hin|[ -> |Hin]%elem_of_cons].
      * specialize (Hl1 _ Hin). unfold price_key in Hl1.
        rewrite Hq, Hpb in Hl1. simpl in Hl1. lia.
      * rewrite Hpb in Hq. injection Hq as ->. lia.
      * specialize (Hl2 _ Hin). unfold price_key in Hl2.
        by rewrite Hq, Hpb in Hl2.
    + intros j x q Hj Hx Hq.
      rewrite Hres, lookup_app_l in Hx by done.
      apply list_elem_of_lookup_2 in Hx.
      assert (x ∈ l1) as Hin.
      { rewrite <-Hk1.
        apply (list_elem_of_filter (fun r => price r <> None)).
        by rewrite Hq. }
      specialize (Hl1 _ Hin). unfold price_key in Hl1.
      by rewrite Hq, Hpb in Hl1.
Qed.

(** ** [search_links] and [best_price]: the failure paths *)

Section Handler.
Context {U : Unicode} {C : Console}.

Lemma lstrip_blank (s : list N) :
  lstrip s = [] <-> Forall (fun c => isspace c = true) s.
Proof.
  induction s as [|c s IH]; simpl; [done|].
  destruct (isspace c) eqn:Hc.
  - rewrite IH. split; [by constructor|by inv 1].
  - split; [done|]. inv 1. congruence.
Qed.

Lemma lstrip_not_blank (s : list N) (c : N) (t : list N) :
  lstrip s = c :: t -> isspace c = false.
Proof.
  induction s as [|d s IH]; simpl; [done|].
  destruct (isspace d) eqn:Hd; [done|]. by intros [= <- _].
Qed.

Lemma strip_blank (s : list N) :
  strip s = [] <-> Forall (fun c => isspace c = true) s.
Proof.
  unfold strip. rewrite <-lstrip_blank. split.
  - intros H. apply (f_equal reverse) in H.
    rewrite reverse_involutive, reverse_nil in H.
    apply lstrip_blank in H. rewrite Forall_reverse in H.
    destruct (lstrip s) as [|c t] eqn:Hs; [done|].
    apply lstrip_not_blank in Hs. inv H. congruence.
  - by intros ->.
Qed.

Lemma blank_strip (field : option (list N)) :
  blank field <-> strip (default [] field) = [].
Proof. destruct field as [s|]; simpl; [by rewrite strip_blank|done]. Qed.

Lemma crawl_price_trace (arun : profile -> list N -> page + list N)
    (link : list N) :
  (crawl_price arun link).2 = [(page_profile, link)].
Proof.
  unfold crawl_price, fetch. rewrite traced_bind_snd. cbn [fst snd].
  destruct (arun page_profile link) as [result|e]; [done|].
  by destruct (print _).
Qed.

Lemma gather_trace (arun : profile -> list N -> page + list N)
    (pick : nat -> nat) (links : list (list N)) :
  (gather pick (crawl_price arun <$> links)).2
  = (fun l => (page_profile, l)) <$> links.
Proof.
  unfold gather. cbn [snd].
  induction links as [|l links IH]; [done|].
  by rewrite !fmap_cons, concat_cons, IH, crawl_price_trace.
Qed.

(** The handler on a request whose body is an object with a string, or
    nothing, under [product]: the response and the uses of the crawler,
    case by case. *)
Lemma best_price_cases (arun : profile -> list N -> page + list N)
    (pick : nat -> nat) (field : option (list N)) :
  best_price arun pick (Object (Text <$> field))
  = match strip (default [] field) with
    | [] =>
        ({| status := 400;
            payload := Error (str "No product name provided") |}, [])
    | product =>
        let search := search_links arun product in
        match search.1 with
        | None => ({| status := 500; payload := ServerError |}, search.2)
        | Some [] =>
            ({| status := 404;
                payload := Error (str "No product links found") |},
             search.2)
        | Some links =>
            (match mapM id ((fun l => (crawl_price arun l).1) <$> links) with
             | Some results => report product links results
             | None => {| status := 500; payload := ServerError |}
             end,
             search.2 ++ ((fun l => (page_profile, l)) <$> links))
        end
    end.
Proof.
  unfold best_price.
  assert (default (Text []) (Text <$> field) = Text (default [] field)) as ->
    by (by destruct field).
  destruct (strip (default [] field)) as [|c product]; [done|].
  apply injective_projections.
  - rewrite traced_bind_fst. cbn zeta.
    destruct (search_links arun (c :: product)).1 as [[|l links]|];
      try done.
    rewrite traced_bind_fst, gather_results, <-list_fmap_compose.
    cbn [fst]. by destruct (mapM _ _).
  - rewrite traced_bind_snd. cbn zeta.
    destruct (search_links arun (c :: product)).1 as [[|l links]|];
      try (cbn [snd mret traced_ret]; by rewrite app_nil_r).
    rewrite traced_bind_snd, gather_trace. cbn [snd]. f_equal.
    destruct (gather pick _).1; cbn [snd mret traced_ret];
      by rewrite app_nil_r.
Qed.


(** C9: a request whose product is missing or blank is answered with
    status 400 and the message [No product name provided], and no
    fetch is made; a request with a product for which the search
    yields no link is answered with status 404 and the message
    [No product links found]. *)
Theorem best_price_rejects
    (arun : profile -> list N -> page + list N) (pick : nat -> nat)
    (field : option (list N)) :
  (blank field ->
     best_price arun pick (Object (Text <$> field))
     = ({| status := 400;
           payload := Error (str "No product name provided") |}, []))
  /\ (~ blank field ->
       (search_links arun (strip (default [] field))).1 = Some [] ->
       (best_price arun pick (Object (Text <$> field))).1
       = {| status := 404;
            payload := Error (str "No product links found") |}).
Proof.
  rewrite best_price_cases. split.
  - intros Hb%blank_strip. by rewrite Hb.
  - intros Hb Hnone. rewrite blank_strip in Hb.
    destruct (strip (default [] field)) as [|c product]; [done|].
    cbn zeta. by rewrite Hnone.
Qed.

End Handler.



(** ** The model on the sample inputs *)

Section Samples.
#[local] Existing Instance ascii_tables.
#[local] Existing Instance strict_console.

(** The values out of range and the match that is no number are dropped,
    and the median of the three that remain is returned. *)
Example prices_of_noise :
  prices_of three_prices_and_noise = [150000; 250000; 350000]
  /\ extract_price three_prices_and_noise [] = Some (rupees 2500).
Proof. by vm_compute. Qed.

Example findall_noise :
  findall true (Grouped (cat [One (Lit rupee); star space]) amount Eps)
          three_prices_and_noise
  = [str "1,500"; str "2,500"; str "3,500"; str "999999"; str "50"; str ",,"]
  /\ float (replace_commas (str ",,")) = None.
Proof. by vm_compute. Qed.

Example extract_price_two_decimals :
  extract_price (str "Total: " ++ rupee :: str " 1,299.5 only") []
  = Some 129950.
Proof. by vm_compute. Qed.

Example extract_price_nothing :
  extract_price (str "call 9876543210 for " ++ rupee :: str "999") [] = None.
Proof. by vm_compute. Qed.

(** [re.IGNORECASE] lets [Cost] match [cost]; a match must reach
    [only] or [/-], also when that takes giving back a decimal. *)
Example findall_generic :
  findall true
    (Grouped (cat [Alt (lit "price") (Alt (lit "cost") (lit "amount"));
                   star not_rupee; One (Lit rupee); star space]) amount Eps)
    (str "Cost now: " ++ rupee :: str " 1,999.5")
  = [str "1,999.5"]
  /\ findall true
       (Grouped (cat [One (Lit rupee); star space]) amount
                (cat [star space; Alt (lit "only") (lit "/-")]))
       (rupee :: str "2,500.505 only, " ++ rupee :: str "2,500.50/- and "
          ++ rupee :: str "1,200.5only")
     = [str "2,500.50"; str "1,200.5"].
Proof. by vm_compute. Qed.

(** Cleaning cuts a link at a quote and at [&amp;], unless a line break
    follows in the link. *)
Example clean_sample :
  clean (str "https://www.ebay.com/itm/123&amp;x=1")
  = str "https://www.ebay.com/itm/123"
  /\ clean (str "https://www.amazon.in/a'b/dp/B01")
     = str "https://www.amazon.in/a"
  /\ clean (str "https://www.amazon.in/a'" ++ newline :: str "b/dp/B01")
     = str "https://www.amazon.in/a'" ++ newline :: str "b/dp/B01".
Proof. by vm_compute. Qed.

(** The links come out by marketplace, not by place in the page. *)
Example links_in_sample :
  links_in sample_results = sample_links.
Proof. by vm_compute. Qed.

Example quote_sample :
  quote (str "a b/" ++ [rupee]) = Some (str "a%20b/%E2%82%B9")
  /\ quote [55296%N] = None.
Proof. by vm_compute. Qed.

(** The handler, end to end. *)
Example best_price_sample :
  (best_price shop_crawler (fun n => (2 * n + 1)%nat)
              (Object (Some (Text (str "  phone ")))))
  = ({| status := 200;
        payload :=
          Report (str "phone")
            (Some {| url := str "https://www.ebay.com/itm/1234567890123";
                     price := Some (rupees 24999); error := None |})
            [ {| url := str "https://www.amazon.in/phone/dp/B09G9HD6PD";
                 price := Some (rupees 25999); error := None |};
              {| url := str "https://www.flipkart.com/phone/p/itm123abc";
                 price := None;
                 error := Some (str "Timeout 15000ms exceeded") |};
              {| url := str "https://www.ebay.com/itm/1234567890123";
                 price := Some (rupees 24999); error := None |} ]
            3 |},
      [ (search_profile,
         str "https://www.google.com/search?q=phone%20price%20site%3Aamazon.in%20OR%20site%3Aflipkart.com%20OR%20site%3Aebay.com");
        (page_profile, str "https://www.amazon.in/phone/dp/B09G9HD6PD");
        (page_profile, str "https://www.flipkart.com/phone/p/itm123abc");
        (page_profile, str "https://www.ebay.com/itm/1234567890123") ]).
Proof. by vm_compute. Qed.

(** Of two observations with the least price, the first is the best. *)
Example report_tie :
  payload
    (report (str "phone") sample_links
       [ {| url := str "a"; price := Some 300; error := None |};
         {| url := str "b"; price := None; error := Some (str "x") |};
         {| url := str "c"; price := Some 200; error := None |};
         {| url := str "d"; price := Some 200; error := None |} ])
  = Report (str "phone")
      (Some {| url := str "c"; price := Some 200; error := None |})
      [ {| url := str "a"; price := Some 300; error := None |};
        {| url := str "b"; price := None; error := Some (str "x") |};
        {| url := str "c"; price := Some 200; error := None |};
        {| url := str "d"; price := Some 200; error := None |} ]
      3.
Proof. by vm_compute. Qed.

Example best_price_blank :
  best_price shop_crawler (fun n => n) (Object (Some (Text (str "   "))))
  = ({| status := 400;
        payload := Error (str "No product name provided") |}, [])
  /\ best_price shop_crawler (fun n => n) (Object None)
     = ({| status := 400;
           payload := Error (str "No product name provided") |}, []).
Proof. by vm_compute. Qed.

Example best_price_no_links :
  (best_price empty_crawler (fun n => n)
     (Object (Some (Text (str "phone"))))).1
  = {| status := 404; payload := Error (str "No product links found") |}
  /\ (best_price offline_crawler (fun n => n)
        (Object (Some (Text (str "phone"))))).1
     = {| status := 404; payload := Error (str "No product links found") |}.
Proof. by vm_compute. Qed.

Example best_price_surrogate :
  best_price shop_crawler (fun n => n) (Object (Some (Text [55296%N])))
  = ({| status := 500; payload := ServerError |}, []).
Proof. by vm_compute. Qed.

(** A body that is no JSON, no object, or has no string under
    [product] is answered by Flask, and the crawler is not used. *)
Example best_price_ill_typed :
  best_price shop_crawler (fun n => n) (Refused UnsupportedMediaType)
  = ({| status := 415; payload := ErrorPage |}, [])
  /\ best_price shop_crawler (fun n => n) NotObject
     = ({| status := 500; payload := ErrorPage |}, [])
  /\ best_price shop_crawler (fun n => n) (Object (Some NotText))
     = ({| status := 500; payload := ErrorPage |}, []).
Proof. by vm_compute. Qed.

(** A failing fetch whose line cannot be printed ends the request with
    status 500, after the search and the pages were asked for. *)
Example best_price_unprintable :
  best_price garbled_crawler (fun n => n)
    (Object (Some (Text (str "phone"))))
  = ({| status := 500; payload := ServerError |},
     [ (search_profile,
        str "https://www.google.com/search?q=phone%20price%20site%3Aamazon.in%20OR%20site%3Aflipkart.com%20OR%20site%3Aebay.com") ])
  /\ (crawl_price picky_crawler unprintable_link).1 = None
  /\ (gather (fun n => n)
        (crawl_price picky_crawler
           <$> [str "https://www.amazon.in/phone/dp/B09G9HD6PD";
                unprintable_link]))
     = (None,
        [ (page_profile, str "https://www.amazon.in/phone/dp/B09G9HD6PD");
          (page_profile, unprintable_link) ]).
Proof. by vm_compute. Qed.

(** [strip] takes the separators U+001C to U+001F for white space. *)
Example strip_separators :
  strip (28%N :: str " phone" ++ [31%N; newline]) = str "phone".
Proof. by vm_compute. Qed.

End Samples.

(** * Further properties *)

(** ** The matcher: what is found, and what is missed *)

Section MatcherMore.
Context {U : Unicode}.
Variable icase : bool.

Lemma scan_pos_bound (pat : pattern) (s : list N) :
  forall p skip q g,
    (q, g) ∈ scan_pos icase pat p skip s -> (q <= p + length s)%nat.
Proof.
  induction s as [|c s IH]; intros p [|skip] q g; cbn [scan_pos].
  - destruct (match_at icase pat p []) as [[g' n]|];
      [|by intros ?%elem_of_nil].
    intros [= -> _]%list_elem_of_singleton. lia.
  - by intros ?%elem_of_nil.
  - destruct (match_at icase pat p (c :: s)) as [[g' n]|].
    + intros [[= -> _]|Hin%IH]%elem_of_cons; simpl; lia.
    + intros Hin%IH. simpl. lia.
  - intros Hin%IH. simpl. lia.
Qed.

(** A match that [findall] reports is a piece of the subject. *)
Lemma findall_plain_in (r : regex) (s g : list N) :
  g ∈ findall icase (Plain r) s ->
  exists a b, s = a ++ g ++ b /\ lang icase r (length a) g b.
Proof.
  rewrite findall_occurrences.
  intros [[q g'] [-> Hin]]%list_elem_of_fmap.
  apply scan_pos_bound in Hin as Hq. simpl in Hq.
  apply scan_pos_match in Hin as [_ [n Hm]]. rewrite Nat.sub_0_r in Hm.
  apply match_at_plain in Hm as (rest & Hs & Hl & _).
  exists (take q s), rest. simpl. rewrite <-Hs, take_drop. split; [done|].
  by rewrite length_take_le.
Qed.

Lemma findall_grouped_in (pre cap post : regex) (s g : list N) :
  g ∈ findall icase (Grouped pre cap post) s ->
  exists a b p, s = a ++ g ++ b /\ lang icase cap p g b.
Proof.
  rewrite findall_occurrences.
  intros [[q g'] [-> Hin]]%list_elem_of_fmap.
  apply scan_pos_match in Hin as [_ [n Hm]]. rewrite Nat.sub_0_r in Hm.
  apply match_at_grouped in Hm as (w1 & w3 & rest & Hs & _ & Hl & _).
  exists (take q s ++ w1), (w3 ++ rest), (q + length w1)%nat. simpl.
  split; [|done].
  by rewrite <-app_assoc, <-Hs, take_drop.
Qed.

(** The matches that [findall] reports for a pattern do not overlap:
    each starts where the one before it has ended, or later. *)
Lemma scan_pos_apart (r : regex) (s : list N) :
  forall p skip,
    StronglySorted (fun a b => (a.1 + length a.2 <= b.1)%nat)
                   (scan_pos icase (Plain r) p skip s).
Proof.
  induction s as [|c s IH]; intros p [|skip];
    cbn [scan_pos]; try by constructor.
  - destruct (match_at icase (Plain r) p []) as [[g n]|]; repeat constructor.
  - destruct (match_at icase (Plain r) p (c :: s)) as [[g n]|] eqn:Hm;
      [|apply IH].
    constructor; [apply IH|].
    apply match_at_plain in Hm as (rest & _ & _ & ->).
    apply Forall_forall. intros [q g'] Hin.
    apply scan_pos_match in Hin as [Hq _]. simpl. lia.
  - apply IH.
Qed.

(** Completeness of the matcher: a word of the language after which the
    continuation succeeds makes [exec] succeed. *)
Lemma many_complete {R} (ok : N -> bool) (k : nat -> list N -> option R)
    (w rest : list N) :
  forall p lo hi,
    Forall (fun c => ok c = true) w ->
    (lo <= length w)%nat ->
    from_option (fun h => (length w <= h)%nat) True hi ->
    is_Some (k (p + length w)%nat rest) ->
    is_Some (many ok lo hi k p (w ++ rest)).
Proof.
  induction w as [|c w IH]; intros p lo hi Hw Hlo Hhi Hk.
  - simpl in *. rewrite Nat.add_0_r in Hk.
    assert (lo = 0)%nat as -> by lia.
    destruct rest as [|c rest]; simpl.
    + by destruct hi as [[|h]|].
    + destruct hi as [[|h]|]; [done| |].
      * destruct (ok c); [|done].
        by destruct (many ok _ _ k (S p) rest).
      * destruct (ok c); [|done].
        by destruct (many ok _ _ k (S p) rest).
  - apply Forall_cons_1 in Hw as [Hc Hw]. simpl in Hlo, Hk.
    rewrite Nat.add_succ_r in Hk.
    assert (is_Some (many ok (pred lo) (pred <$> hi) k (S p) (w ++ rest)))
      as [x Hx].
    { apply IH; [done|lia| |done].
      destruct hi as [h|]; simpl in *; [lia|done]. }
    simpl. destruct hi as [[|h]|]; [simpl in Hhi; lia| |];
      rewrite Hc; by rewrite Hx.
Qed.

Lemma exec_complete {R} (r : regex) :
  forall (k : nat -> list N -> option R) p w rest,
    lang icase r p w rest ->
    is_Some (k (p + length w)%nat rest) ->
    is_Some (exec icase r k p (w ++ rest)).
Proof.
  induction r as [|a|a lo hi|r IH|r1 IH1 r2 IH2|r1 IH1 r2 IH2| |];
    intros k p w rest; simpl.
  - intros -> Hk. simpl in *. by rewrite Nat.add_0_r in Hk.
  - intros (c & -> & Hc) Hk. simpl in *. rewrite Hc.
    by rewrite Nat.add_1_r in Hk.
  - intros (Hw & Hlo & Hhi) Hk. by apply many_complete.
  - intros Hw Hk. destruct (exec icase r k p (w ++ rest)) eqn:Hr; [done|].
    destruct Hw as [->|Hw].
    + simpl in *. by rewrite Nat.add_0_r in Hk.
    + destruct (IH k p w rest Hw Hk) as [x Hx]. congruence.
  - intros (w1 & w2 & -> & Hw1 & Hw2) Hk. rewrite <-app_assoc.
    apply IH1; [done|]. apply IH2; [done|].
    by rewrite length_app, Nat.add_assoc in Hk.
  - intros Hw Hk. destruct (exec icase r1 k p (w ++ rest)) eqn:Hr; [done|].
    destruct Hw as [Hw|Hw].
    + destruct (IH1 k p w rest Hw Hk) as [x Hx]. congruence.
    + by apply IH2.
  - intros [-> ->] Hk. simpl in *. done.
  - intros [-> Hrest] Hk. simpl in *. rewrite Nat.add_0_r in Hk.
    by destruct Hrest as [->| ->].
Qed.

(** There is a match at an offset exactly when a word of the pattern
    starts there. *)
Lemma match_at_plain_iff (r : regex) (p : nat) (s : list N) :
  is_Some (match_at icase (Plain r) p s) <->
  exists w rest, s = w ++ rest /\ lang icase r p w rest.
Proof.
  split.
  - intros [[g n] (rest & -> & Hg & _)%match_at_plain]. eauto.
  - intros (w & rest & -> & Hw). simpl. by apply exec_complete.
Qed.

(** The scan reports nothing exactly when no offset has a match. *)
Lemma scan_nil (pat : pattern) (s : list N) :
  forall p,
    scan icase pat p 0 s = [] <->
    forall i, (i <= length s)%nat ->
      match_at icase pat (p + i) (drop i s) = None.
Proof.
  induction s as [|c s IH]; intros p; cbn [scan].
  - destruct (match_at icase pat p []) as [[g n]|] eqn:Hm.
    + split; [done|]. intros H. specialize (H 0%nat (Nat.le_refl _)).
      rewrite Nat.add_0_r in H. simpl in H. congruence.
    + split; [|done]. intros _ i Hi. simpl in Hi.
      assert (i = 0)%nat as -> by lia. by rewrite Nat.add_0_r.
  - destruct (match_at icase pat p (c :: s)) as [[g n]|] eqn:Hm.
    + split; [done|]. intros H. specialize (H 0%nat (Nat.le_0_l _)).
      rewrite Nat.add_0_r in H. simpl in H. congruence.
    + rewrite IH. split.
      * intros H [|i] Hi; [by rewrite Nat.add_0_r|].
        simpl in Hi. rewrite Nat.add_succ_r. apply (H i). lia.
      * intros H i Hi. specialize (H (S i)). simpl in H.
        rewrite Nat.add_succ_r in H. apply H. lia.
Qed.

Lemma findall_plain_nil (r : regex) (s : list N) :
  findall icase (Plain r) s = [] <->
  forall a w rest, s = a ++ w ++ rest -> ~ lang icase r (length a) w rest.
Proof.
  unfold findall. rewrite scan_nil. split.
  - intros H a w rest -> Hw.
    assert (length a <= length (a ++ w ++ rest))%nat as Hle
      by (rewrite length_app; lia).
    specialize (H (length a) Hle). rewrite drop_app_length in H.
    change (0 + length a)%nat with (length a) in H.
    assert (is_Some (match_at icase (Plain r) (length a) (w ++ rest)))
      as Hsome by (apply match_at_plain_iff; eauto).
    rewrite H in Hsome. by destruct Hsome.
  - intros H i Hi. simpl.
    destruct (match_at icase (Plain r) i (drop i s)) as [[g n]|] eqn:Hm;
      [|done].
    apply match_at_plain in Hm as (rest & Hs & Hg & _).
    exfalso. apply (H (take i s) g rest).
    + by rewrite <-Hs, take_drop.
    + by rewrite length_take_le.
Qed.

End MatcherMore.

(** ** [extract_price]: what the result depends on *)

Section ExtractPriceMore.
Context {U : Unicode}.

Lemma sorted_set_strict (l : list Z) :
  StronglySorted Z.lt (merge_sort Z.le (list_set l)).
Proof.
  assert (NoDup (merge_sort Z.le (list_set l))) as Hnd.
  { rewrite merge_sort_Permutation. apply NoDup_remove_dups. }
  assert (StronglySorted Z.le (merge_sort Z.le (list_set l))) as Hs.
  { apply StronglySorted_merge_sort; apply _. }
  induction Hs as [|x k Hk IH Hx]; [constructor|].
  apply NoDup_cons in Hnd as [Hnot Hnd]. constructor; [by apply IH|].
  apply Forall_forall. intros y Hy.
  pose proof (proj1 (Forall_forall _ _) Hx y Hy).
  assert (x <> y) by (by intros ->). lia.
Qed.

Lemma elem_of_sorted_set (l : list Z) (v : Z) :
  v ∈ merge_sort Z.le (list_set l) <-> v ∈ l.
Proof.
  rewrite merge_sort_Permutation. apply elem_of_remove_dups.
Qed.

(** X1: the result depends on the set of candidate values only: neither
    the order of the matches, nor how often a value is matched, nor the
    URL bears on it. *)
Theorem extract_price_same_candidates (txt1 url1 txt2 url2 : list N) :
  (forall v, v ∈ prices_of txt1 <-> v ∈ prices_of txt2) ->
  extract_price txt1 url1 = extract_price txt2 url2.
Proof.
  intros Hsame.
  destruct (prices_of txt1) as [|p ps] eqn:H1.
  { assert (prices_of txt2 = []) as H2.
    { destruct (prices_of txt2) as [|q qs]; [done|].
      by specialize (proj2 (Hsame q) (list_elem_of_here _ _))
        as ?%elem_of_nil. }
    by rewrite (proj2 (extract_price_None_iff txt1 url1) H1),
               (proj2 (extract_price_None_iff txt2 url2) H2). }
  set (sorted := merge_sort Z.le (list_set (p :: ps))).
  assert (sorted <> []) as Hne.
  { intros Hnil. assert (p ∈ sorted) as Hp
      by (apply elem_of_sorted_set; left).
    rewrite Hnil in Hp. by apply elem_of_nil in Hp. }
  assert (forall v, v ∈ sorted <-> v ∈ prices_of txt1) as Hel1.
  { intros v. unfold sorted. by rewrite elem_of_sorted_set, H1. }
  assert (forall v, v ∈ sorted <-> v ∈ prices_of txt2) as Hel2.
  { intros v. by rewrite Hel1, H1. }
  pose proof (sorted_set_strict (p :: ps)) as Hs. fold sorted in Hs.
  by rewrite (extract_price_sorted txt1 url1 sorted Hs Hel1 Hne),
             (extract_price_sorted txt2 url2 sorted Hs Hel2 Hne).
Qed.

(** X2: with two different candidates or more, the value returned is a
    candidate that is not the smallest one. *)
Theorem extract_price_not_smallest (txt url : list N) (p q : Z) :
  p ∈ prices_of txt -> q ∈ prices_of txt -> p <> q ->
  exists v low,
    extract_price txt url = Some v
    /\ v ∈ prices_of txt /\ low ∈ prices_of txt /\ low < v.
Proof.
  intros Hp Hq Hpq.
  set (sorted := merge_sort Z.le (list_set (prices_of txt))).
  pose proof (sorted_set_strict (prices_of txt)) as Hs. fold sorted in Hs.
  assert (forall v, v ∈ sorted <-> v ∈ prices_of txt) as Hel
    by (intros v; apply elem_of_sorted_set).
  apply Hel in Hp, Hq.
  destruct sorted as [|a [|b rest]] eqn:Hsorted.
  { by apply elem_of_nil in Hp. }
  { apply list_elem_of_singleton in Hp, Hq. congruence. }
  rewrite (extract_price_sorted txt url (a :: b :: rest) Hs Hel) by done.
  replace (length (a :: b :: rest)) with (1 * 2 + length rest)%nat
    by (simpl; lia).
  rewrite Nat.div_add_l by done.
  change ((a :: b :: rest) !! (1 + length rest / 2)%nat)
    with ((b :: rest) !! (length rest / 2)%nat).
  destruct (lookup_lt_is_Some_2 (b :: rest) (length rest / 2)) as [v Hv].
  { assert (length rest / 2 <= length rest)%nat
      by (apply Nat.Div0.div_le_upper_bound; lia).
    change (length (b :: rest)) with (S (length rest)). lia. }
  exists v, a. split; [done|]. apply list_elem_of_lookup_2 in Hv.
  split; [apply Hel; by right|]. split; [apply Hel; by left|].
  apply StronglySorted_cons in Hs as [Ha _].
  by apply (proj1 (Forall_forall _ _) Ha).
Qed.

(** X3: a text without a decimal digit yields no price: a match then holds
    separators only, and [float] rejects it. *)
Theorem extract_price_needs_digit (txt url : list N) :
  Forall (fun c => decimal c = None) txt ->
  extract_price txt url = None.
Proof.
  intros Hno. apply extract_price_None_iff.
  destruct (prices_of txt) as [|p ps] eqn:Hp; [done|]. exfalso.
  assert (p ∈ prices_of txt) as (pat & m & Hpat & Hm & Hin)%elem_of_prices_of
    by (rewrite Hp; left).
  pose proof (proj1 (Forall_forall _ _) price_patterns_shaped pat Hpat)
    as (pre & cap & post & -> & Hcap).
  apply findall_grouped_in in Hm as (a & b & k & -> & Hg).
  apply Forall_app in Hno as [_ [Hno _]%Forall_app].
  assert (replace_commas m = []) as Hnil.
  { assert (forall w,
      Forall (fun c => decimal c = None) w ->
      Forall (fun c => atom_ok true digit_or_comma c = true) w ->
      replace_commas w = []) as Hcommas.
    { intros w Hnone Hw. unfold replace_commas.
      induction Hw as [|c w Hc Hw IH]; [done|].
      apply Forall_cons_1 in Hnone as [Hnc Hnone].
      destruct (digit_or_comma_spec c Hc) as [[d Hd]| ->]; [congruence|].
      rewrite filter_cons_False by (intros Hx; by apply Hx). by apply IH. }
    destruct Hcap as [->| ->].
    - destruct Hg as (w & v & -> & (Hw & _) & Hv).
      apply Forall_app in Hno as [Hnw Hnv].
      destruct Hv as [->|(v1 & d & -> & (c & -> & Hc) & (Hd & Hlo & _))].
      + rewrite app_nil_r. by apply Hcommas.
      + destruct Hd as [|c0 d Hc0 _]; [simpl in Hlo; lia|].
        apply digit_spec in Hc0 as [x Hx].
        apply Forall_app in Hnv as [_ [Hn0 _]%Forall_cons_1]. congruence.
    - destruct Hg as (Hw & _). by apply Hcommas. }
  unfold parse_match in Hin. rewrite Hnil in Hin. by apply elem_of_nil in Hin.
Qed.

End ExtractPriceMore.

Lemma prices_of_reordered :
  prices_of (U := ascii_tables) prices_reordered = [250000; 150000; 250000].
Proof. vm_compute. reflexivity. Qed.

Lemma extract_price_same_candidates_witness :
  (forall v, v ∈ prices_of (U := ascii_tables) two_prices
             <-> v ∈ prices_of (U := ascii_tables) prices_reordered)
  /\ extract_price (U := ascii_tables) two_prices (str "a")
     = extract_price (U := ascii_tables) prices_reordered (str "b").
Proof.
  assert (forall v, v ∈ prices_of (U := ascii_tables) two_prices
                    <-> v ∈ prices_of (U := ascii_tables) prices_reordered)
    as Hsame.
  { intros v. rewrite prices_of_two_prices, prices_of_reordered.
    rewrite !elem_of_cons. pose proof (elem_of_nil v). tauto. }
  split; [exact Hsame|].
  exact (extract_price_same_candidates (U := ascii_tables) _ _ _ _ Hsame).
Defined.

Lemma extract_price_not_smallest_witness :
  150000 ∈ prices_of (U := ascii_tables) two_prices
  /\ 250000 ∈ prices_of (U := ascii_tables) two_prices
  /\ exists v low,
       extract_price (U := ascii_tables) two_prices [] = Some v
       /\ v ∈ prices_of (U := ascii_tables) two_prices
       /\ low ∈ prices_of (U := ascii_tables) two_prices /\ low < v.
Proof.
  assert (150000 ∈ prices_of (U := ascii_tables) two_prices) as Hp
    by (rewrite prices_of_two_prices; left).
  assert (250000 ∈ prices_of (U := ascii_tables) two_prices) as Hq
    by (rewrite prices_of_two_prices; right; left).
  split; [exact Hp|]. split; [exact Hq|].
  exact (extract_price_not_smallest (U := ascii_tables) two_prices []
           150000 250000 Hp Hq ltac:(done)).
Defined.

Lemma extract_price_needs_digit_witness :
  Forall (fun c => decimal (Unicode := ascii_tables) c = None) no_digit_text
  /\ extract_price (U := ascii_tables) no_digit_text [] = None.
Proof.
  assert (Forall (fun c => decimal (Unicode := ascii_tables) c = None)
                 no_digit_text) as Hno
    by (repeat constructor).
  split; [exact Hno|].
  exact (extract_price_needs_digit (U := ascii_tables) no_digit_text [] Hno).
Defined.

(** ** [search_links]: the matches, the cleaning, the validation *)

Section SearchLinksMore.
Context {U : Unicode}.

Lemma elem_of_all_links (content l : list N) :
  l ∈ all_links content <->
  exists r, Plain r ∈ url_patterns /\ l ∈ findall false (Plain r) content.
Proof.
  unfold all_links. rewrite list_elem_of_bind. split.
  - intros (pat & Hl & Hpat). unfold url_patterns in Hpat.
    rewrite !elem_of_cons in Hpat.
    destruct Hpat as [->|[->|[->|?%elem_of_nil]]]; [| | |done];
      eexists; (split; [|exact Hl]); unfold url_patterns;
      rewrite !elem_of_cons; auto.
  - intros (r & Hr & Hl). eauto.
Qed.

(** X5: every match that [search_links] collects is a piece of the content
    that was fetched. *)
Theorem all_links_in_content (content l : list N) :
  l ∈ all_links content -> exists a b, content = a ++ l ++ b.
Proof.
  intros (r & _ & Hl)%elem_of_all_links.
  apply findall_plain_in in Hl as (a & b & -> & _). eauto.
Qed.

(** X6: no match is collected exactly when no word of any of the three URL
    patterns starts anywhere in the content. *)
Theorem all_links_nil (content : list N) :
  all_links content = [] <->
  forall r, Plain r ∈ url_patterns ->
    forall a w rest,
      content = a ++ w ++ rest -> ~ lang false r (length a) w rest.
Proof.
  split.
  - intros Hnil r Hr. apply findall_plain_nil.
    destruct (findall false (Plain r) content) as [|l ls] eqn:Hf; [done|].
    assert (l ∈ all_links content) as Hl.
    { apply elem_of_all_links. exists r. split; [done|]. rewrite Hf. left. }
    rewrite Hnil in Hl. by apply elem_of_nil in Hl.
  - intros Hno. destruct (all_links content) as [|l ls] eqn:Ha; [done|].
    assert (l ∈ all_links content) as (r & Hr & Hl)%elem_of_all_links
      by (rewrite Ha; left).
    rewrite (proj2 (findall_plain_nil false r content) (Hno r Hr)) in Hl.
    by apply elem_of_nil in Hl.
Qed.

(** The matches of one URL pattern are reported by increasing offset
    and do not overlap. *)
Theorem url_matches_apart (r : regex) (content : list N) :
  findall false (Plain r) content = (occurrences false (Plain r) content).*2
  /\ StronglySorted (fun a b => (a.1 + length a.2 <= b.1)%nat)
                    (occurrences false (Plain r) content).
Proof. split; [apply findall_occurrences|apply scan_pos_apart]. Qed.

(** [re.sub] with the empty replacement takes characters away and adds
    none. *)
Lemma cut_sublist (icase : bool) (r : regex) (s : list N) :
  forall p skip, cut icase r p skip s `sublist_of` s.
Proof.
  induction s as [|c s IH]; intros p [|skip]; cbn [cut]; try done.
  - destruct (match_at icase (Plain r) p (c :: s)) as [[g [|n]]|].
    + by apply sublist_skip.
    + by apply sublist_cons.
    + by apply sublist_skip.
  - by apply sublist_cons.
Qed.

(** X7: a cleaned link is the link with some characters taken away: it is
    not longer, and what it holds the link holds in the same order. *)
Theorem clean_sublist (link : list N) :
  clean link `sublist_of` link /\ (length (clean link) <= length link)%nat.
Proof.
  assert (clean link `sublist_of` link) as Hsub.
  { unfold clean, sub_empty. etrans; apply cut_sublist. }
  split; [done|]. by apply sublist_length.
Qed.

Lemma link_char_spec (c : N) :
  link_char c = true ->
  ~ atom_ok false markup_char c = true /\ c <> ampersand.
Proof.
  unfold link_char. rewrite negb_true_iff. intros Hc. split.
  - intros [->|[->|[->| ->]]]%markup_char_spec; by vm_compute in Hc.
  - intros ->. by vm_compute in Hc.
Qed.

(** X8: a link without angle bracket, quote and ampersand is left as it
    is. *)
Theorem clean_tidy (link : list N) :
  Forall (fun c => link_char c = true) link -> clean link = link.
Proof.
  intros Htidy. unfold clean, sub_empty.
  assert (cut false markup_tail 0 0 link = link) as ->.
  { destruct (cut_first markup_tail markup_tail_to_end markup_tail_newline
                link 0) as [->|(a & g & e & Hl & _ & Hg)]; [done|].
    apply markup_tail_first in Hg as (c & g' & -> & Hc).
    rewrite Hl in Htidy.
    apply Forall_app in Htidy as [_ [Hx _]%Forall_app].
    apply Forall_cons_1 in Hx as [[Hx _]%link_char_spec _]. done. }
  destruct (cut_first amp_tail amp_tail_to_end amp_tail_newline link 0)
    as [->|(a & g & e & Hl & _ & Hg)]; [done|].
  apply amp_tail_first in Hg as (g' & ->).
  rewrite Hl in Htidy.
  apply Forall_app in Htidy as [_ [Hx _]%Forall_app].
  apply Forall_cons_1 in Hx as [[_ Hx]%link_char_spec _]. done.
Qed.

Lemma scheme_accepts (l : list N) :
  str "http://" `prefix_of` l \/ str "https://" `prefix_of` l ->
  matches_at_start false scheme l = true.
Proof.
  unfold matches_at_start. rewrite bool_decide_eq_true.
  intros [[k ->]|[k ->]]; by eexists.
Qed.

(** X9: the validation accepts exactly the texts that start with one of the
    two schemes, have more than 30 characters and hold one of the three
    tokens. *)
Theorem is_product_page_iff (l : list N) :
  is_product_page l = true <->
  (str "http://" `prefix_of` l \/ str "https://" `prefix_of` l)
  /\ (30 < length l)%nat
  /\ exists token a b, token ∈ page_tokens /\ l = a ++ token ++ b.
Proof.
  split; [apply is_product_page_spec|].
  intros (Hs & Hlen & t & a & b & Ht & Hl).
  unfold is_product_page. rewrite (scheme_accepts l Hs).
  apply Nat.ltb_lt in Hlen. rewrite Hlen. simpl.
  assert (contains t l = true) as Hc by (apply contains_spec; eauto).
  unfold page_tokens in Ht. rewrite !elem_of_cons in Ht.
  destruct Ht as [->|[->|[->|?%elem_of_nil]]]; [| | |done];
    rewrite Hc; by rewrite ?orb_true_r.
Qed.

(** X10: the cap is the only way a valid cleaned link is lost: each one is
    returned, unless three links are returned already. *)
Theorem links_in_complete (content l : list N) :
  l ∈ clean_links content ->
  l ∈ links_in content \/ length (links_in content) = 3%nat.
Proof.
  intros Hl. apply elem_of_fromkeys in Hl.
  unfold links_in. rewrite length_take.
  destruct (decide (3 <= length (fromkeys (clean_links content)))%nat).
  - right. lia.
  - left. by rewrite take_ge by lia.
Qed.

Lemma fromkeys_NoDup_id (l : list (list N)) : NoDup l -> fromkeys l = l.
Proof.
  induction l as [|k l IH] using rev_ind; [done|].
  intros (Hl & Hk & _)%NoDup_app. rewrite fromkeys_snoc, (IH Hl).
  rewrite bool_decide_eq_false_2; [done|].
  intros Hin. apply (Hk k Hin). left.
Qed.

(** X11: when the valid cleaned links are distinct and at most three,
    [search_links] returns them as they are. *)
Theorem links_in_all (content : list N) :
  NoDup (clean_links content) ->
  (length (clean_links content) <= 3)%nat ->
  links_in content = clean_links content.
Proof.
  intros Hnd Hlen. unfold links_in.
  rewrite (fromkeys_NoDup_id _ Hnd). by apply take_ge.
Qed.

End SearchLinksMore.

Lemma clean_tidy_witness :
  Forall (fun c => link_char c = true) tidy_link
  /\ clean (U := ascii_tables) tidy_link = tidy_link.
Proof.
  assert (Forall (fun c => link_char c = true) tidy_link) as Htidy
    by (repeat constructor).
  split; [exact Htidy|].
  exact (clean_tidy (U := ascii_tables) tidy_link Htidy).
Defined.

Lemma clean_links_two_link_page :
  clean_links (U := ascii_tables) two_link_page
  = [str "https://www.amazon.in/phone/dp/B09G9HD6PD";
     str "https://www.ebay.com/itm/1234567890123"].
Proof. vm_compute. reflexivity. Qed.

Lemma links_in_complete_witness :
  str "https://www.ebay.com/itm/1234567890123"
    ∈ clean_links (U := ascii_tables) two_link_page
  /\ (str "https://www.ebay.com/itm/1234567890123"
        ∈ links_in (U := ascii_tables) two_link_page
      \/ length (links_in (U := ascii_tables) two_link_page) = 3%nat).
Proof.
  assert (str "https://www.ebay.com/itm/1234567890123"
            ∈ clean_links (U := ascii_tables) two_link_page) as Hin
    by (rewrite clean_links_two_link_page; right; left).
  split; [exact Hin|].
  exact (links_in_complete (U := ascii_tables) two_link_page _ Hin).
Defined.

Lemma links_in_all_witness :
  NoDup (clean_links (U := ascii_tables) two_link_page)
  /\ (length (clean_links (U := ascii_tables) two_link_page) <= 3)%nat
  /\ links_in (U := ascii_tables) two_link_page
     = clean_links (U := ascii_tables) two_link_page.
Proof.
  assert (NoDup (clean_links (U := ascii_tables) two_link_page)) as Hnd.
  { rewrite clean_links_two_link_page.
    apply NoDup_cons. split; [|apply NoDup_singleton].
    rewrite list_elem_of_singleton. discriminate. }
  assert (length (clean_links (U := ascii_tables) two_link_page) <= 3)%nat
    as Hlen by (rewrite clean_links_two_link_page; simpl; lia).
  split; [exact Hnd|]. split; [exact Hlen|].
  exact (links_in_all (U := ascii_tables) two_link_page Hnd Hlen).
Defined.

(** ** [search_links]: the search URL *)

Section QuoteMore.

Lemma utf8_None (c : N) : utf8 c = None <-> surrogate c = true.
Proof.
  unfold utf8, surrogate.
  destruct (N.ltb_spec c 128), (N.ltb_spec c 2048), (N.leb_spec 55296 c),
    (N.leb_spec c 57343), (N.ltb_spec c 65536); simpl; split;
    try done; lia.
Qed.

Lemma quote_app (a b : list N) :
  quote (a ++ b) = qa ← quote a; qb ← quote b; Some (qa ++ qb).
Proof.
  induction a as [|c a IH].
  - simpl. by destruct (quote b).
  - change (quote ((c :: a) ++ b))
      with (bytes ← utf8 c; q ← quote (a ++ b);
            Some ((if always_safe c then [c] else bytes ≫= percent) ++ q)).
    change (quote (c :: a))
      with (bytes ← utf8 c; q ← quote a;
            Some ((if always_safe c then [c] else bytes ≫= percent) ++ q)).
    rewrite IH.
    destruct (utf8 c), (quote a), (quote b); simpl; try done.
    by rewrite app_assoc.
Qed.

Lemma quote_None (s : list N) :
  quote s = None <-> Exists (fun c => surrogate c = true) s.
Proof.
  induction s as [|c s IH].
  - split; [done|by inv 1].
  - change (quote (c :: s))
      with (bytes ← utf8 c; q ← quote s;
            Some ((if always_safe c then [c] else bytes ≫= percent) ++ q)).
    rewrite Exists_cons, <-IH, <-utf8_None.
    destruct (utf8 c), (quote s); simpl; split; try done; try tauto.
    intros [?|?]; done.
Qed.

Lemma hex_digit_safe (n : N) : (n < 16)%N -> always_safe (hex_digit n) = true.
Proof.
  intros Hn. unfold always_safe, hex_digit.
  destruct (N.ltb_spec n 10);
    rewrite !orb_true_iff, !andb_true_iff, !N.leb_le; lia.
Qed.

Lemma percent_safe (b : N) :
  (b < 256)%N -> Forall (fun c => url_safe c = true) (percent b).
Proof.
  intros Hb. unfold percent, url_safe. repeat constructor.
  - rewrite hex_digit_safe; [done|].
    apply N.Div0.div_lt_upper_bound. lia.
  - rewrite hex_digit_safe; [done|]. by apply N.mod_lt.
Qed.

Lemma utf8_bytes (c : N) (bytes : list N) :
  code_point c -> utf8 c = Some bytes -> Forall (fun b => (b < 256)%N) bytes.
Proof.
  unfold code_point, utf8. intros Hc.
  assert (forall x, x mod 64 < 64)%N as Hmod by (intros x; by apply N.mod_lt).
  destruct (N.ltb_spec c 128); [intros [= <-]; repeat constructor; lia|].
  destruct (N.ltb_spec c 2048).
  { intros [= <-].
    assert (c / 64 < 32)%N by (apply N.Div0.div_lt_upper_bound; lia).
    pose proof (Hmod c). repeat constructor; lia. }
  destruct (_ && _); [done|].
  destruct (N.ltb_spec c 65536).
  { intros [= <-].
    assert (c / 4096 < 16)%N by (apply N.Div0.div_lt_upper_bound; lia).
    pose proof (Hmod c). pose proof (Hmod (c / 64)%N).
    repeat constructor; lia. }
  intros [= <-].
  assert (c / 262144 < 16)%N by (apply N.Div0.div_lt_upper_bound; lia).
  pose proof (Hmod c). pose proof (Hmod (c / 64)%N).
  pose proof (Hmod (c / 4096)%N).
  repeat constructor; lia.
Qed.

Lemma quote_safe (s q : list N) :
  Forall code_point s -> quote s = Some q ->
  Forall (fun c => url_safe c = true) q.
Proof.
  revert q. induction s as [|c s IH]; intros q Hs.
  - intros [= <-]. constructor.
  - change (quote (c :: s))
      with (bytes ← utf8 c; q ← quote s;
            Some ((if always_safe c then [c] else bytes ≫= percent) ++ q)).
    apply Forall_cons_1 in Hs as [Hc Hs].
    destruct (utf8 c) as [bytes|] eqn:Hb; [|done].
    destruct (quote s) as [q'|]; [|done]. simpl. intros [= <-].
    apply Forall_app. split; [|by apply IH].
    destruct (always_safe c) eqn:Hsafe.
    + constructor; [|constructor]. unfold url_safe. by rewrite Hsafe.
    + apply utf8_bytes in Hb; [|done]. clear -Hb.
      induction Hb as [|b bytes Hb _ IH]; [constructor|].
      change ((b :: bytes) ≫= percent) with (percent b ++ (bytes ≫= percent)).
      apply Forall_app. split; [by apply percent_safe|done].
Qed.

(** A text of letters, digits and the marks [_.-~/] is quoted as it
    is. *)
Lemma quote_plain (s : list N) :
  Forall (fun c => always_safe c = true) s -> quote s = Some s.
Proof.
  induction 1 as [|c s Hc _ IH]; [done|].
  change (quote (c :: s))
    with (bytes ← utf8 c; q ← quote s;
          Some ((if always_safe c then [c] else bytes ≫= percent) ++ q)).
  rewrite IH, Hc.
  assert (utf8 c = Some [c]) as ->; [|done].
  unfold utf8. destruct (N.ltb_spec c 128); [done|].
  unfold always_safe in Hc. exfalso.
  repeat (apply orb_true_iff in Hc as [Hc|Hc]);
    try (apply andb_true_iff in Hc as [_ Hc%N.leb_le]; lia);
    apply N.eqb_eq in Hc; subst c; vm_compute in H; by destruct H.
Qed.

End QuoteMore.

Section SearchUrl.
Context {U : Unicode} {C : Console} (arun : fetcher).

Lemma quote_query (product : list N) :
  quote (product ++ query_tail)
  = q ← quote product; Some (q ++ quoted_query_tail).
Proof.
  rewrite quote_app.
  assert (quote query_tail = Some quoted_query_tail) as ->
    by (vm_compute; reflexivity).
  by destruct (quote product).
Qed.

Lemma search_links_query (product : list N) :
  search_links arun product
  = match quote product with
    | None => (None, [])
    | Some q =>
        let search_url := SEARCH_ENGINE ++ q ++ quoted_query_tail in
        (match arun search_profile search_url with
         | inl result => Some (links_in (search_content result))
         | inr e => if print (search_error_line e) then Some [] else None
         end,
         [(search_profile, search_url)])
    end.
Proof.
  unfold search_links.
  change (str " price site:amazon.in OR site:flipkart.com OR site:ebay.com")
    with query_tail.
  rewrite quote_query. destruct (quote product) as [q|]; [|done].
  unfold fetch. cbn [mbind option_bind]. apply injective_projections.
  - rewrite traced_bind_fst. cbn [fst].
    destruct (arun search_profile _) as [result|e]; [done|].
    by destruct (print _).
  - rewrite traced_bind_snd. cbn [fst snd].
    destruct (arun search_profile _) as [result|e]; [done|].
    by destruct (print _).
Qed.

(** X12: for a product name of code points none of which is a surrogate,
    [search_links] uses the crawler once, with the set-up of the search,
    on the address of the search engine followed by the quoted name and
    the quoted rest of the query; the quoted name holds only letters,
    digits, the marks [_.-~/] and the percent sign. *)
Theorem search_links_url (product : list N) :
  Forall code_point product ->
  Forall (fun c => surrogate c = false) product ->
  exists q,
    quote product = Some q
    /\ Forall (fun c => url_safe c = true) q
    /\ (search_links arun product).2
       = [(search_profile, SEARCH_ENGINE ++ q ++ quoted_query_tail)].
Proof.
  intros Hcp Hsur. destruct (quote product) as [q|] eqn:Hq.
  - exists q. split; [done|]. split; [by eapply quote_safe|].
    by rewrite search_links_query, Hq.
  - apply quote_None, Exists_exists in Hq as (c & Hc & Hs).
    rewrite Forall_forall in Hsur. specialize (Hsur c Hc). congruence.
Qed.

(** X13: [search_links] raises exactly when the product name holds a
    surrogate, or the fetch of the search page raises with a message
    whose line the handler cannot print; the crawler is left unused
    exactly in the first case. *)
Theorem search_links_raises (product : list N) :
  ((search_links arun product).1 = None
   <-> Exists (fun c => surrogate c = true) product
       \/ exists q e,
            quote product = Some q
            /\ arun search_profile
                 (SEARCH_ENGINE ++ q ++ quoted_query_tail) = inr e
            /\ print (search_error_line e) = false)
  /\ ((search_links arun product).2 = []
      <-> Exists (fun c => surrogate c = true) product).
Proof.
  rewrite search_links_query, <-quote_None.
  destruct (quote product) as [q|] eqn:Hq; cbn [fst snd].
  - split; [|by split]. split.
    + intros Hnone. right. exists q.
      destruct (arun search_profile _) as [result|e]; [done|].
      exists e. by destruct (print _).
    + intros [?|(q' & e & [= <-] & -> & ->)]; done.
  - split; [|done]. split; [by left|done].
Qed.

(** The links that [search_links] returns are at most three and
    distinct. *)
Lemma search_links_links (product : list N) (links : list (list N)) :
  (search_links arun product).1 = Some links ->
  (length links <= 3)%nat /\ NoDup links.
Proof.
  rewrite search_links_query. destruct (quote product) as [q|]; [|done].
  cbn [fst]. destruct (arun search_profile _) as [result|e].
  - intros [= <-]. unfold links_in. split.
    + rewrite length_take. lia.
    + exact (sublist_NoDup _ _ (NoDup_fromkeys _) (sublist_take _ _)).
  - destruct (print _); [|done]. intros [= <-].
    split; [simpl; lia|constructor].
Qed.

End SearchUrl.

Lemma search_links_url_witness :
  Forall code_point (str "iphone 13")
  /\ Forall (fun c => surrogate c = false) (str "iphone 13")
  /\ exists q,
       quote (str "iphone 13") = Some q
       /\ Forall (fun c => url_safe c = true) q
       /\ (search_links (U := ascii_tables) (C := strict_console)
             offline_crawler (str "iphone 13")).2
          = [(search_profile, SEARCH_ENGINE ++ q ++ quoted_query_tail)].
Proof.
  assert (Forall code_point (str "iphone 13")) as Hcp
    by (repeat constructor).
  assert (Forall (fun c => surrogate c = false) (str "iphone 13")) as Hsur
    by (repeat constructor).
  split; [exact Hcp|]. split; [exact Hsur|].
  exact (search_links_url (U := ascii_tables) (C := strict_console)
           offline_crawler (str "iphone 13") Hcp Hsur).
Defined.

(** ** [crawl_price] and [best_price]: the responses and the calls *)

Section HandlerMore.
Context {U : Unicode} {C : Console} (arun : fetcher) (pick : nat -> nat).

(** X14: [crawl_price] uses the crawler once, on its link, with the
    set-up of the pages; it raises exactly when the fetch raises and
    the line of the handler cannot be printed; an observation that it
    returns carries the link, has an error exactly when the fetch
    raised, and a price only without an error and only between 1000 and
    200000. *)
Theorem crawl_price_observation (link : list N) :
  (crawl_price arun link).2 = [(page_profile, link)]
  /\ ((crawl_price arun link).1 = None
      <-> exists e, arun page_profile link = inr e
                    /\ print (crawl_error_line link e) = false)
  /\ (forall r, (crawl_price arun link).1 = Some r ->
        url r = link
        /\ (forall e, error r = Some e <-> arun page_profile link = inr e)
        /\ (forall p, price r = Some p ->
              error r = None /\ rupees 1000 <= p <= rupees 200000)).
Proof.
  split; [apply crawl_price_trace|].
  destruct (arun page_profile link) as [result|e'] eqn:Hf.
  - rewrite (crawl_price_page _ _ _ Hf). split.
    + split; [done|]. by intros (e & ? & _).
    + intros r [= <-]. split; [done|]. split; [done|].
      intros p Hp. split; [done|]. cbn [price] in Hp.
      apply extract_price_elem, prices_of_plausible in Hp.
      by apply plausible_spec.
  - rewrite (crawl_price_failure _ _ _ Hf).
    destruct (print (crawl_error_line link e')) eqn:Hp.
    + split; [split; [done|]; intros (e & [= <-] & ?); congruence|].
      intros r [= <-]. split; [done|]. split; [|done].
      intros e. cbn [error]. split; by intros [= ->].
    + split; [|done]. split; [|done]. intros _. by exists e'.
Qed.

(** What the crawl returns, link by link. *)
Lemma crawl_results (links : list (list N)) (results : list observation) :
  mapM id ((fun l => (crawl_price arun l).1) <$> links) = Some results ->
  Forall2 (fun l r => (crawl_price arun l).1 = Some r) links results.
Proof. intros H%mapM_Some_1. by apply Forall2_fmap_l in H. Qed.

Lemma crawl_results_urls (links : list (list N))
    (results : list observation) :
  Forall2 (fun l r => (crawl_price arun l).1 = Some r) links results ->
  url <$> results = links.
Proof.
  induction 1 as [|l r links results Hr _ IH]; [done|].
  rewrite fmap_cons, IH. f_equal. by apply (crawl_price_url arun).
Qed.

Lemma lstrip_app_blank (ws s : list N) :
  Forall (fun c => isspace c = true) ws -> lstrip (ws ++ s) = lstrip s.
Proof. induction 1 as [|c ws Hc _ IH]; [done|]. simpl. by rewrite Hc. Qed.

Lemma lstrip_app (s t : list N) :
  lstrip s <> [] -> lstrip (s ++ t) = lstrip s ++ t.
Proof.
  induction s as [|c s IH]; [done|]. simpl.
  by destruct (isspace c); [apply IH|].
Qed.

Lemma strip_padding (ws1 s ws2 : list N) :
  Forall (fun c => isspace c = true) ws1 ->
  Forall (fun c => isspace c = true) ws2 ->
  strip (ws1 ++ s ++ ws2) = strip s.
Proof.
  intros H1 H2. unfold strip. rewrite (lstrip_app_blank _ _ H1).
  destruct (lstrip s) as [|c t] eqn:Hs.
  - apply lstrip_blank in Hs.
    assert (lstrip (s ++ ws2) = []) as ->; [|done].
    apply lstrip_blank, Forall_app. by split.
  - rewrite lstrip_app by (by rewrite Hs). rewrite Hs, reverse_app.
    apply (f_equal reverse), lstrip_app_blank. by rewrite Forall_reverse.
Qed.

(** X15: white space before and after the product name changes neither the
    response nor the calls of the crawler. *)
Theorem best_price_ignores_padding (ws1 product ws2 : list N) :
  Forall (fun c => isspace c = true) ws1 ->
  Forall (fun c => isspace c = true) ws2 ->
  best_price arun pick (Object (Some (Text (ws1 ++ product ++ ws2))))
  = best_price arun pick (Object (Some (Text product))).
Proof.
  intros H1 H2.
  rewrite (best_price_cases arun pick (Some (ws1 ++ product ++ ws2))).
  rewrite (best_price_cases arun pick (Some product)).
  change (default [] (Some ?s)) with s. by rewrite strip_padding.
Qed.

(** X16: a product name that holds a surrogate after trimming is answered
    with status 500, and the crawler is not used. *)
Theorem best_price_unquotable (field : option (list N)) (c : N) :
  c ∈ strip (default [] field) -> surrogate c = true ->
  best_price arun pick (Object (Text <$> field))
  = ({| status := 500; payload := ServerError |}, []).
Proof.
  intros Hc Hs. rewrite best_price_cases.
  destruct (strip (default [] field)) as [|d product] eqn:Hp.
  { by apply elem_of_nil in Hc. }
  assert (quote (d :: product) = None) as Hq.
  { apply quote_None, Exists_exists. eauto. }
  cbn zeta. by rewrite search_links_query, Hq.
Qed.

(** X17: when the search page cannot be fetched and the line of the
    handler can be printed, a product name that is not blank and holds
    no surrogate is answered with status 404, after the one call of the
    search. *)
Theorem best_price_search_down (field : option (list N)) :
  (forall search_url,
     exists e, arun search_profile search_url = inr e
               /\ print (search_error_line e) = true) ->
  ~ blank field ->
  Forall (fun c => surrogate c = false) (strip (default [] field)) ->
  exists search_url,
    best_price arun pick (Object (Text <$> field))
    = ({| status := 404;
          payload := Error (str "No product links found") |},
       [(search_profile, search_url)]).
Proof.
  intros Hdown Hb Hs. rewrite blank_strip in Hb.
  rewrite best_price_cases.
  destruct (strip (default [] field)) as [|d product]; [done|].
  cbn zeta. rewrite search_links_query.
  destruct (quote (d :: product)) as [q|] eqn:Hq.
  - destruct (Hdown (SEARCH_ENGINE ++ q ++ quoted_query_tail))
      as (e & He & Hp).
    cbn zeta. rewrite He, Hp. by eexists.
  - apply quote_None, Exists_exists in Hq as (c & Hc & Hsur).
    rewrite Forall_forall in Hs. specialize (Hs c Hc). congruence.
Qed.

Lemma search_links_calls (product : list N) (links : list (list N)) :
  (search_links arun product).1 = Some links ->
  exists search_url,
    (search_links arun product).2 = [(search_profile, search_url)].
Proof.
  rewrite search_links_query. destruct (quote product) as [q|]; [|done].
  by eexists.
Qed.

Lemma search_links_few_calls (product : list N) :
  (length (search_links arun product).2 <= 1)%nat.
Proof.
  rewrite search_links_query. destruct (quote product); simpl; lia.
Qed.

(** A request that the handler does not read as an object with a
    string, or nothing, under [product] gets the page of Flask. *)
Lemma best_price_typed (req : request) :
  (exists field, req = Object (Text <$> field))
  \/ (payload (best_price arun pick req).1 = ErrorPage
      /\ (best_price arun pick req).2 = []
      /\ (status (best_price arun pick req).1 = 400%nat
          \/ status (best_price arun pick req).1 = 415%nat
          \/ status (best_price arun pick req).1 = 500%nat)).
Proof.
  destruct req as [[|]| |[[s|]|]].
  - right. simpl. auto.
  - right. simpl. auto.
  - right. simpl. auto.
  - left. by exists (Some s).
  - right. simpl. auto.
  - left. by exists None.
Qed.

(** X18: a response with status 200 answers a request whose body is an
    object with a string under [product]; it is a report on the trimmed
    product name whose count of links is the number of its
    observations, between one and three; the observations carry
    distinct links; and the crawler was used once for the search, then
    once for each observation, in their order. *)
Theorem best_price_ok (req : request) :
  status (best_price arun pick req).1 = 200%nat ->
  exists field search_url best all,
    req = Object (Text <$> field)
    /\ best_price arun pick req
       = ({| status := 200;
             payload := Report (strip (default [] field)) best all
                               (length all) |},
          (search_profile, search_url)
            :: ((fun o => (page_profile, url o)) <$> all))
    /\ (1 <= length all <= 3)%nat
    /\ NoDup (url <$> all).
Proof.
  destruct (best_price_typed req) as [[field ->]|(_ & _ & Hst)];
    [|intros H200; rewrite H200 in Hst; by destruct Hst as [|[|]]].
  rewrite best_price_cases. intros H200. exists field.
  destruct (strip (default [] field)) as [|d product]; [done|].
  cbn zeta in *.
  destruct (search_links arun (d :: product)).1 as [[|l links]|] eqn:Hl;
    [done| |done].
  destruct (search_links_links _ _ _ Hl) as [Hlen Hnd].
  destruct (search_links_calls _ _ Hl) as [search_url ->].
  remember (l :: links) as ls eqn:Hls.
  destruct (mapM id _) as [results|] eqn:Hres; [|done].
  apply crawl_results in Hres. pose proof (crawl_results_urls _ _ Hres) as Hu.
  exists search_url. unfold report. do 2 eexists. split; [done|]. split.
  - rewrite <-(Forall2_length _ _ _ Hres).
    rewrite <-Hu at 2. by rewrite <-list_fmap_compose.
  - rewrite Hu, <-(Forall2_length _ _ _ Hres). split; [|done].
    subst ls. simpl in *. lia.
Qed.

(** X19: the handler answers with status 200, 400, 404, 415 or 500; it
    uses the crawler at most four times, never before a response with
    status 400 or 415 or the page of Flask, once before a response with
    status 404, and at least twice before a response with status 200. *)
Theorem best_price_calls (req : request) :
  let r := best_price arun pick req in
  status r.1 ∈ [200; 400; 404; 415; 500]%nat
  /\ (length r.2 <= 4)%nat
  /\ (status r.1 = 400%nat \/ status r.1 = 415%nat
      \/ payload r.1 = ErrorPage -> r.2 = [])
  /\ (status r.1 = 404%nat -> length r.2 = 1%nat)
  /\ (status r.1 = 200%nat -> (2 <= length r.2)%nat).
Proof.
  intros r. subst r.
  destruct (best_price_typed req) as [[field ->]|(Hpage & Hnil & Hst)].
  2:{ rewrite Hnil, !elem_of_cons. split; [tauto|]. split; [simpl; lia|].
      split; [done|]. split; intros H; rewrite H in Hst;
        by destruct Hst as [|[|]]. }
  rewrite best_price_cases.
  destruct (strip (default [] field)) as [|d product].
  { simpl. rewrite !elem_of_cons. split; [auto|]. split; [lia|]. done. }
  cbn zeta.
  destruct (search_links arun (d :: product)).1 as [[|l links]|] eqn:Hl.
  - destruct (search_links_calls _ _ Hl) as [search_url ->]. simpl.
    rewrite !elem_of_cons. split; [auto|]. split; [lia|].
    split; [by intros [|[|]]|done].
  - destruct (search_links_links _ _ _ Hl) as [Hlen _].
    destruct (search_links_calls _ _ Hl) as [search_url ->].
    cbn [fst snd]. rewrite length_app, length_fmap.
    destruct (mapM id _) as [results|]; unfold report; cbn [status payload];
      rewrite !elem_of_cons; (split; [auto 10|]);
      (split; [simpl in *; lia|]);
      (split; [by intros [|[|]]|]); (split; [done|]);
      intros _; simpl in *; lia.
  - pose proof (search_links_few_calls (d :: product)) as Hfew.
    cbn [fst snd status payload]. rewrite !elem_of_cons.
    split; [auto 10|]. split; [lia|].
    split; [by intros [|[|]]|done].
Qed.

Lemma filter_priced_nil (results : list observation) :
  Forall (fun o => price o = None) results ->
  filter (fun r => price r <> None) results = [].
Proof.
  induction 1 as [|o results Ho _ IH]; [done|].
  rewrite filter_cons, IH. by destruct (decide (price o <> None)).
Qed.

(** X20: when every product page fails to load, a response with status 200
    has no best observation, and each of its observations has an error
    and no price. *)
Theorem best_price_pages_down (req : request)
    (product : list N) (best : option observation)
    (all : list observation) (n : nat) :
  (forall link, exists e, arun page_profile link = inr e) ->
  (best_price arun pick req).1
  = {| status := 200; payload := Report product best all n |} ->
  best = None /\ Forall (fun o => price o = None /\ error o <> None) all.
Proof.
  intros Hdown.
  destruct (best_price_typed req) as [[field ->]|(Hpage & _)];
    [|intros H; by rewrite H in Hpage].
  rewrite best_price_cases.
  destruct (strip (default [] field)) as [|d p]; [done|]. cbn zeta.
  destruct (search_links arun (d :: p)).1 as [[|l links]|]; [done| |done].
  remember (l :: links) as ls eqn:Hls. clear Hls. cbn [fst].
  destruct (mapM id _) as [results|] eqn:Hres; [|done].
  apply crawl_results in Hres. unfold report.
  assert (Forall (fun o => price o = None /\ error o <> None) results)
    as Hall.
  { clear -Hres Hdown.
    induction Hres as [|x r ls results Hr _ IH]; constructor; [|done].
    destruct (Hdown x) as [e He].
    rewrite (crawl_price_failure _ _ _ He) in Hr.
    destruct (print _); [|done]. by injection Hr as <-. }
  intros [= _ <- <- _]. split; [|done].
  rewrite filter_priced_nil; [done|].
  eapply Forall_impl; [exact Hall|]. by intros o [? _].
Qed.

End HandlerMore.


Lemma best_price_ignores_padding_witness :
  Forall (fun c => isspace (Unicode := ascii_tables) c = true) (str "  ")
  /\ Forall (fun c => isspace (Unicode := ascii_tables) c = true) [newline]
  /\ best_price (U := ascii_tables) (C := strict_console) shop_crawler
       (fun n => n)
       (Object (Some (Text (str "  " ++ str "phone" ++ [newline]))))
     = best_price (U := ascii_tables) (C := strict_console) shop_crawler
         (fun n => n) (Object (Some (Text (str "phone")))).
Proof.
  assert (Forall (fun c => isspace (Unicode := ascii_tables) c = true)
            (str "  ")) as H1 by (repeat constructor).
  assert (Forall (fun c => isspace (Unicode := ascii_tables) c = true)
            [newline]) as H2 by (repeat constructor).
  split; [exact H1|]. split; [exact H2|].
  exact (best_price_ignores_padding (U := ascii_tables)
           (C := strict_console) shop_crawler
           (fun n => n) (str "  ") (str "phone") [newline] H1 H2).
Defined.

Lemma best_price_unquotable_witness :
  55296%N ∈ strip (U := ascii_tables) (default [] (Some (str "tv" ++ [55296%N])))
  /\ surrogate 55296 = true
  /\ best_price (U := ascii_tables) (C := strict_console) shop_crawler
       (fun n => n) (Object (Text <$> Some (str "tv" ++ [55296%N])))
     = ({| status := 500; payload := ServerError |}, []).
Proof.
  assert (55296%N ∈ strip (U := ascii_tables)
                      (default [] (Some (str "tv" ++ [55296%N])))) as Hc.
  { vm_compute. do 2 right. left. }
  split; [exact Hc|]. split; [reflexivity|].
  exact (best_price_unquotable (U := ascii_tables) (C := strict_console)
           shop_crawler (fun n => n) (Some (str "tv" ++ [55296%N]))
           55296%N Hc eq_refl).
Defined.

Lemma best_price_search_down_witness :
  (forall search_url,
     exists e, offline_crawler search_profile search_url = inr e
               /\ print (C := strict_console) (search_error_line e) = true)
  /\ ~ blank (U := ascii_tables) (Some (str "iphone 13"))
  /\ Forall (fun c => surrogate c = false)
       (strip (U := ascii_tables) (default [] (Some (str "iphone 13"))))
  /\ exists search_url,
       best_price (U := ascii_tables) (C := strict_console) offline_crawler
         (fun n => n) (Object (Text <$> Some (str "iphone 13")))
       = ({| status := 404;
             payload := Error (str "No product links found") |},
          [(search_profile, search_url)]).
Proof.
  assert (forall search_url,
            exists e, offline_crawler search_profile search_url = inr e
                      /\ print (C := strict_console) (search_error_line e)
                         = true)
    as Hdown by (intros search_url; by eexists).
  assert (~ blank (U := ascii_tables) (Some (str "iphone 13"))) as Hb.
  { intros Hb. apply Forall_cons_1 in Hb as [Hb _]. by vm_compute in Hb. }
  assert (Forall (fun c => surrogate c = false)
            (strip (U := ascii_tables)
                   (default [] (Some (str "iphone 13"))))) as Hs.
  { vm_compute. repeat constructor. }
  split; [exact Hdown|]. split; [exact Hb|]. split; [exact Hs|].
  exact (best_price_search_down (U := ascii_tables) (C := strict_console)
           offline_crawler (fun n => n) (Some (str "iphone 13"))
           Hdown Hb Hs).
Defined.

Lemma best_price_ok_witness :
  status (best_price (U := ascii_tables) (C := strict_console) shop_crawler
            (fun n => n) (Object (Some (Text (str "  phone "))))).1
  = 200%nat
  /\ exists field search_url best all,
       Object (Some (Text (str "  phone "))) = Object (Text <$> field)
       /\ best_price (U := ascii_tables) (C := strict_console) shop_crawler
            (fun n => n) (Object (Some (Text (str "  phone "))))
          = ({| status := 200;
                payload :=
                  Report (strip (U := ascii_tables) (default [] field))
                         best all (length all) |},
             (search_profile, search_url)
               :: ((fun o => (page_profile, url o)) <$> all))
       /\ (1 <= length all <= 3)%nat
       /\ NoDup (url <$> all).
Proof.
  assert (status (best_price (U := ascii_tables) (C := strict_console)
                    shop_crawler (fun n => n)
                    (Object (Some (Text (str "  phone "))))).1 = 200%nat)
    as Hok by (vm_compute; reflexivity).
  split; [exact Hok|].
  exact (best_price_ok (U := ascii_tables) (C := strict_console)
           shop_crawler (fun n => n)
           (Object (Some (Text (str "  phone ")))) Hok).
Defined.

Lemma best_price_pages_down_witness :
  (forall link, exists e, pages_down_crawler page_profile link = inr e)
  /\ (best_price (U := ascii_tables) (C := strict_console)
        pages_down_crawler (fun n => n)
        (Object (Some (Text (str "phone"))))).1
     = {| status := 200;
          payload :=
            Report (str "phone") None
              [ {| url := str "https://www.amazon.in/phone/dp/B09G9HD6PD";
                   price := None;
                   error := Some (str "net::ERR_CONNECTION_RESET") |};
                {| url := str "https://www.flipkart.com/phone/p/itm123abc";
                   price := None;
                   error := Some (str "net::ERR_CONNECTION_RESET") |};
                {| url := str "https://www.ebay.com/itm/1234567890123";
                   price := None;
                   error := Some (str "net::ERR_CONNECTION_RESET") |} ]
              3 |}
  /\ (@None observation = None
      /\ Forall (fun o => price o = None /\ error o <> None)
           [ {| url := str "https://www.amazon.in/phone/dp/B09G9HD6PD";
                price := None;
                error := Some (str "net::ERR_CONNECTION_RESET") |};
             {| url := str "https://www.flipkart.com/phone/p/itm123abc";
                price := None;
                error := Some (str "net::ERR_CONNECTION_RESET") |};
             {| url := str "https://www.ebay.com/itm/1234567890123";
                price := None;
                error := Some (str "net::ERR_CONNECTION_RESET") |} ]).
Proof.
  assert (forall link,
            exists e, pages_down_crawler page_profile link = inr e)
    as Hdown by (intros link; by eexists).
  split; [exact Hdown|].
  assert ((best_price (U := ascii_tables) (C := strict_console)
             pages_down_crawler (fun n => n)
             (Object (Some (Text (str "phone"))))).1
          = {| status := 200;
               payload :=
                 Report (str "phone") None
                   [ {| url := str "https://www.amazon.in/phone/dp/B09G9HD6PD";
                        price := None;
                        error := Some (str "net::ERR_CONNECTION_RESET") |};
                     {| url := str "https://www.flipkart.com/phone/p/itm123abc";
                        price := None;
                        error := Some (str "net::ERR_CONNECTION_RESET") |};
                     {| url := str "https://www.ebay.com/itm/1234567890123";
                        price := None;
                        error := Some (str "net::ERR_CONNECTION_RESET") |} ]
                   3 |}) as Hresp by (vm_compute; reflexivity).
  split; [exact Hresp|].
  exact (best_price_pages_down (U := ascii_tables) (C := strict_console)
           pages_down_crawler (fun n => n)
           (Object (Some (Text (str "phone")))) _ _ _ _ Hdown Hresp).
Defined.

(** ** [extract_price]: a price that is found *)

Section FirstCharacter.
Context {U : Unicode}.
Variable icase : bool.

Lemma lang_consumes (r : regex) :
  forall p w rest, consumes r = true -> lang icase r p w rest -> w <> [].
Proof.
  induction r as [|a|a lo hi|r IH|r1 IH1 r2 IH2|r1 IH1 r2 IH2| |];
    intros p w rest; simpl; try done.
  - by intros _ (c & -> & _).
  - intros Hlo%negb_true_iff%Nat.eqb_neq (_ & Hlen & _) ->.
    simpl in Hlen. lia.
  - intros [H1|H2]%orb_true_iff (w1 & w2 & -> & Hw1 & Hw2) Hnil.
    + apply app_eq_nil in Hnil as [-> _]. by eapply IH1.
    + apply app_eq_nil in Hnil as [_ ->]. by eapply IH2.
  - intros [H1 H2]%andb_true_iff [Hw|Hw]; [by eapply IH1|by eapply IH2].
Qed.

Lemma lang_starts (r : regex) :
  forall p c w rest, lang icase r p (c :: w) rest -> starts icase r c = true.
Proof.
  induction r as [|a|a lo hi|r IH|r1 IH1 r2 IH2|r1 IH1 r2 IH2| |];
    intros p c w rest; simpl; try done.
  - by intros (d & [= -> _] & Hd).
  - intros (Hw & _). by inv Hw.
  - intros [?|Hw]; [done|by eapply IH].
  - intros (w1 & w2 & Hw & Hw1 & Hw2). apply orb_true_iff.
    destruct w1 as [|d w1]; simpl in Hw.
    + right. subst w2. apply andb_true_iff. split; [|by eapply IH2].
      apply negb_true_iff. destruct (consumes r1) eqn:Hc; [|done].
      by destruct (lang_consumes r1 _ _ _ Hc Hw1).
    + left. injection Hw as -> _. by eapply IH1.
  - intros [Hw|Hw]; apply orb_true_iff; [left; by eapply IH1|].
    right; by eapply IH2.
  - by intros [? _].
  - by intros [? _].
Qed.

(** No match starts where the part before the group cannot start. *)
Lemma no_match_pre (pre cap post : regex) (p : nat) (s : list N) :
  consumes pre = true ->
  Forall (fun c => starts icase pre c = false) s ->
  match_at icase (Grouped pre cap post) p s = None.
Proof.
  intros Hc Hs.
  destruct (match_at icase (Grouped pre cap post) p s) as [[g n]|] eqn:Hm;
    [|done].
  apply match_at_grouped in Hm as (w1 & w3 & rest & -> & Hpre & _).
  destruct w1 as [|c w1]; [by destruct (lang_consumes _ _ _ _ Hc Hpre)|].
  apply lang_starts in Hpre. apply Forall_cons_1 in Hs as [Hs _]. congruence.
Qed.

(** No match when the part after the group cannot start anywhere
    behind the first character. *)
Lemma no_match_post (pre cap post : regex) (p : nat) (s : list N) :
  consumes pre = true -> consumes post = true ->
  Forall (fun c => starts icase post c = false) (tail s) ->
  match_at icase (Grouped pre cap post) p s = None.
Proof.
  intros Hc1 Hc3 Hs.
  destruct (match_at icase (Grouped pre cap post) p s) as [[g n]|] eqn:Hm;
    [|done].
  apply match_at_grouped
    in Hm as (w1 & w3 & rest & -> & Hpre & _ & Hpost & _).
  destruct w1 as [|c w1]; [by destruct (lang_consumes _ _ _ _ Hc1 Hpre)|].
  destruct w3 as [|d w3]; [by destruct (lang_consumes _ _ _ _ Hc3 Hpost)|].
  apply lang_starts in Hpost. simpl in Hs.
  apply Forall_app in Hs as [_ [_ Hs]%Forall_app].
  apply Forall_cons_1 in Hs as [Hs _]. congruence.
Qed.

Lemma many_greedy {R} (ok : N -> bool) (k : nat -> list N -> option R)
    (s : list N) :
  forall p lo x,
    Forall (fun c => ok c = true) s -> (lo <= length s)%nat ->
    k (p + length s)%nat [] = Some x ->
    many ok lo None k p s = Some x.
Proof.
  induction s as [|c s IH]; intros p lo x Hs Hlo Hk; simpl in *.
  - assert (lo = 0)%nat as -> by lia. by rewrite Nat.add_0_r in Hk.
  - apply Forall_cons_1 in Hs as [-> Hs].
    rewrite (IH (S p) (pred lo) x); [done|done|lia|].
    by replace (S p + length s)%nat with (p + S (length s))%nat by lia.
Qed.

Lemma scan_skip_all (pat : pattern) (s : list N) :
  forall p,
    match_at icase pat (p + length s) [] = None ->
    scan icase pat p (length s) s = [].
Proof.
  induction s as [|c s IH]; intros p; simpl.
  - rewrite Nat.add_0_r. by intros ->.
  - replace (p + S (length s))%nat with (S p + length s)%nat by lia.
    apply IH.
Qed.

Lemma findall_none (pat : pattern) (s : list N) :
  (forall i p, match_at icase pat p (drop i s) = None) ->
  findall icase pat s = [].
Proof. intros H. apply scan_nil. intros i _. apply H. Qed.

End FirstCharacter.

Section FoundPrice.
#[local] Existing Instance ascii_tables.

Lemma quiet_pre (pre cap post : regex) (w : list N) :
  consumes pre = true ->
  Forall (fun c => starts true pre c = false) (rupee :: price_chars) ->
  Forall (fun c => c ∈ price_chars) w ->
  findall true (Grouped pre cap post) (rupee :: w) = [].
Proof.
  intros Hc Hpre Hw. apply findall_none. intros i p.
  apply no_match_pre; [done|]. apply Forall_drop.
  rewrite Forall_forall in Hpre. constructor; [apply Hpre; left|].
  eapply Forall_impl; [exact Hw|]. intros c Hin. apply Hpre. by right.
Qed.

Lemma quiet_post (pre cap post : regex) (w : list N) :
  consumes pre = true -> consumes post = true ->
  Forall (fun c => starts true post c = false) price_chars ->
  Forall (fun c => c ∈ price_chars) w ->
  findall true (Grouped pre cap post) (rupee :: w) = [].
Proof.
  intros Hc1 Hc3 Hpost Hw. apply findall_none. intros i p.
  apply no_match_post; [done|done|].
  assert (Forall (fun c => starts true post c = false) w) as Hw'.
  { rewrite Forall_forall in Hpost. eapply Forall_impl; [exact Hw|].
    intros c Hin. by apply Hpost. }
  destruct i as [|i]; [done|]. simpl.
  apply (Forall_drop _ i) in Hw'. by destruct Hw'.
Qed.

Lemma rupee_amount_match (w : list N) :
  w <> [] -> Forall (fun c => c ∈ price_chars) w ->
  match_at true (Grouped (cat [One (Lit rupee); star space]) amount Eps)
           0 (rupee :: w)
  = Some (w, S (length w)).
Proof.
  intros Hne Hw.
  assert (Forall (fun c => atom_ok true digit_or_comma c = true
                           /\ atom_ok true space c = false) w) as Hok.
  { eapply Forall_impl; [exact Hw|]. intros c Hc. unfold price_chars in Hc.
    repeat (apply elem_of_cons in Hc as [->|Hc]; [by vm_compute|]).
    by apply elem_of_nil in Hc. }
  destruct w as [|c w]; [done|].
  pose proof (Forall_inv Hok) as [_ Hc].
  unfold match_at, star, amount, plus. cbn [cat exec many].
  change (atom_ok true (Lit rupee) rupee) with true. cbn iota.
  rewrite Hc. apply Forall_cons_1 in Hok as [[-> _] Hok].
  change (Init.Nat.pred 1) with 0%nat.
  change (Init.Nat.pred <$> None) with (@None nat).
  rewrite many_greedy with (x := (c :: w, S (length (c :: w)))); [done| |lia|].
  - eapply Forall_impl; [exact Hok|]. by intros d [? _].
  - cbn beta iota. f_equal. f_equal. apply take_ge. simpl. lia.
Qed.

Lemma findall_rupee_amount (w : list N) :
  w <> [] -> Forall (fun c => c ∈ price_chars) w ->
  findall true (Grouped (cat [One (Lit rupee); star space]) amount Eps)
          (rupee :: w)
  = [w].
Proof.
  intros Hne Hw. unfold findall. cbn [scan].
  rewrite (rupee_amount_match w Hne Hw). cbn [Init.Nat.pred].
  rewrite scan_skip_all; [done|]. by apply no_match_pre.
Qed.

(** X4: a text that is the rupee sign followed by ASCII digits and commas
    which, the commas dropped, write a number between 1000 and 200000,
    yields that number. *)
Theorem extract_price_amount (w url : list N) (p : Z) :
  Forall (fun c => c ∈ price_chars) w ->
  float (replace_commas w) = Some p ->
  rupees 1000 <= p <= rupees 200000 ->
  extract_price (rupee :: w) url = Some p.
Proof.
  intros Hw Hp Hrange%plausible_spec.
  assert (w <> []) as Hne by (by intros ->).
  assert (prices_of (rupee :: w) = [p]) as Hprices.
  { unfold prices_of, price_patterns.
    rewrite !bind_cons. change ([] ≫= _) with (@nil Z).
    rewrite (findall_rupee_amount w Hne Hw).
    repeat match goal with
    | |- context [findall true (Grouped ?pre ?cap ?post) (rupee :: w)] =>
        first
          [ rewrite (quiet_pre pre cap post w eq_refl)
              by (first [exact Hw|repeat constructor])
          | rewrite (quiet_post pre cap post w eq_refl eq_refl)
              by (first [exact Hw|repeat constructor]) ]
    end.
    change ([] ≫= _) with (@nil Z). rewrite bind_singleton.
    unfold parse_match. by rewrite Hp, Hrange. }
  unfold extract_price. by rewrite Hprices.
Qed.

End FoundPrice.

Lemma extract_price_amount_witness :
  Forall (fun c => c ∈ price_chars) (str "1,25,999")
  /\ float (U := ascii_tables) (replace_commas (str "1,25,999"))
     = Some (rupees 125999)
  /\ rupees 1000 <= rupees 125999 <= rupees 200000
  /\ extract_price (U := ascii_tables) (rupee :: str "1,25,999") []
     = Some (rupees 125999).
Proof.
  assert (Forall (fun c => c ∈ price_chars) (str "1,25,999")) as Hw.
  { repeat constructor.
    all: unfold price_chars; rewrite !elem_of_cons; vm_compute; tauto. }
  assert (rupees 1000 <= rupees 125999 <= rupees 200000) as Hrange
    by (unfold rupees; lia).
  split; [exact Hw|]. split; [reflexivity|]. split; [exact Hrange|].
  exact (extract_price_amount (str "1,25,999") [] (rupees 125999)
           Hw eq_refl Hrange).
Defined.

Lemma all_links_in_content_witness :
  str "https://www.ebay.com/itm/1234567890123"
    ∈ all_links (U := ascii_tables) two_link_page
  /\ exists a b,
       two_link_page = a ++ str "https://www.ebay.com/itm/1234567890123" ++ b.
Proof.
  assert (str "https://www.ebay.com/itm/1234567890123"
            ∈ all_links (U := ascii_tables) two_link_page) as Hin.
  { assert (all_links (U := ascii_tables) two_link_page
            = [str "https://www.amazon.in/phone/dp/B09G9HD6PD";
               str "https://www.ebay.com/itm/1234567890123"]) as ->
      by (vm_compute; reflexivity).
    right. left. }
  split; [exact Hin|].
  exact (all_links_in_content (U := ascii_tables) two_link_page _ Hin).
Defined.
